(** * The lineup client of the match-outcome predictor

    A shallow embedding of [player_pred_frontend/src/App.tsx]: the state of
    the [App] component, its handlers ([selectPlayer], [handlePredict],
    [fillTeamWithDefaults]), the derived [filteredPlayers] list, the
    [getLogoUrl] helper and the rows of the player-selection modal.

    JavaScript data is modelled as the code has it:
    - a string is the sequence of its code units; the model covers the code
      units below 256 (the Latin-1 range, which holds the player names and
      slot keys of the file), one [ascii] per code unit, and the string
      built-ins
      ([toLowerCase], [includes], [replace] with the pattern [/\s+/g]) are
      the ECMAScript ones restricted to that range;
      where the search needs names beyond that range, its callback is
      modelled once more on 16-bit code units ([Utf16]);
    - an object is the list of its own properties in insertion order (the
      order [Object.keys] and [Object.values] enumerate; no key of the
      program is an integer index);
    - a value read from a parsed JSON document, or [undefined], is a [value];
    - an expression that may throw returns a [result]. *)

From Stdlib Require Import List String Ascii Bool Arith ZArith QArith Lia Lqa.
From Equations Require Import Equations.
Import ListNotations.

Set Warnings "-register-all".

Local Open Scope string_scope.
Local Open Scope list_scope.
Local Open Scope nat_scope.

(* ===================================================================== *)
(** * Definitions *)
(* ===================================================================== *)

(** ** Exceptions *)

Inductive error : Type :=
| TypeError.

Inductive result (A : Type) : Type :=
| Ok (a : A)
| Throw (e : error).
Arguments Ok {A} a.
Arguments Throw {A} e.

Definition bind {A B : Type} (m : result A) (k : A -> result B) : result B :=
  match m with
  | Ok a => k a
  | Throw e => Throw e
  end.

Notation "x <- m ;; k" := (bind m (fun x => k))
  (at level 61, m at next level, right associativity).

(** [Array.prototype.filter] with a callback that may throw: the elements
    are visited from left to right and the first exception ends the call. *)
Fixpoint filterM {A : Type} (f : A -> result bool) (l : list A)
  : result (list A) :=
  match l with
  | [] => Ok []
  | x :: l' =>
      b <- f x ;;
      r <- filterM f l' ;;
      Ok (if b then x :: r else r)
  end.

(** ** Strings *)

Module JsString.

Definition code (c : ascii) : nat := nat_of_ascii c.

(** The code units below 256 that [toLowerCase] changes: A-Z, and the
    Latin-1 capitals U+00C0-U+00DE without the multiplication sign. *)
Definition is_upper (c : ascii) : bool :=
  let n := code c in
  ((65 <=? n) && (n <=? 90))
  || ((192 <=? n) && (n <=? 222) && negb (n =? 215)).

Definition lower_unit (c : ascii) : ascii :=
  if is_upper c then ascii_of_nat (code c + 32) else c.

Fixpoint toLowerCase (s : string) : string :=
  match s with
  | EmptyString => EmptyString
  | String c s' => String (lower_unit c) (toLowerCase s')
  end.

(** The class [\s] below 256: TAB, LF, VT, FF, CR, SPACE and NBSP. *)
Definition is_space (c : ascii) : bool :=
  let n := code c in
  ((9 <=? n) && (n <=? 13)) || (n =? 32) || (n =? 160).

(** [s.includes(sub)] *)
Fixpoint includes (s sub : string) : bool :=
  if String.prefix sub s then true
  else match s with
       | EmptyString => false
       | String _ s' => includes s' sub
       end.

(** What is left of [s] after the longest match of [\s*] at its start. *)
Fixpoint skip_spaces (s : string) : string :=
  match s with
  | EmptyString => EmptyString
  | String c s' => if is_space c then skip_spaces s' else s
  end.

(** [s.replace(/\s+/g, by)]: the scan goes from left to right; where a
    match of [\s+] starts, the quantifier takes the whole run, the
    replacement is written once and the scan goes on behind the run. *)
Equations? replace_spaces (s : string) (by_ : string) : string
  by wf (String.length s) lt :=
  replace_spaces EmptyString by_ := EmptyString;
  replace_spaces (String c s') by_ with is_space c => {
    | true := (by_ ++ replace_spaces (skip_spaces s') by_)%string;
    | false := String c (replace_spaces s' by_) }.
Proof.
  clear. simpl.
  assert (H : String.length (skip_spaces s') <= String.length s').
  { induction s' as [|d t IH]; simpl; [lia|].
    destruct (is_space d); simpl; lia. }
  lia.
Qed.

(** A code unit from its number, for the literals outside ASCII. *)
Definition unit (n : nat) : string := String (ascii_of_nat n) EmptyString.

End JsString.

(** ** Objects and values *)

(** An object with values in [A]: its own properties, in insertion order. *)
Definition obj (A : Type) : Type := list (string * A).

Section Obj.
Context {A : Type}.

(** [o[k]], [None] for a missing property *)
Fixpoint obj_get (k : string) (o : obj A) : option A :=
  match o with
  | [] => None
  | (k', v) :: o' => if String.eqb k k' then Some v else obj_get k o'
  end.

(** [{...o, [k]: v}]: an existing property keeps its place, a new one
    goes last. *)
Fixpoint obj_set (k : string) (v : A) (o : obj A) : obj A :=
  match o with
  | [] => [(k, v)]
  | (k', v') :: o' =>
      if String.eqb k k' then (k', v) :: o' else (k', v') :: obj_set k v o'
  end.

Definition obj_keys (o : obj A) : list string := map fst o.
Definition obj_values (o : obj A) : list A := map snd o.

(** [{...x}] where [x] may be [undefined]: nothing is copied then. *)
Definition spread (x : option (obj A)) : obj A :=
  match x with
  | Some o => o
  | None => []
  end.

(** [Object.values(x)]: a TypeError on [undefined]. *)
Definition Object_values (x : option (obj A)) : result (list A) :=
  match x with
  | Some o => Ok (obj_values o)
  | None => Throw TypeError
  end.
End Obj.

(** A JSON value, or [undefined]. A number [VNum m e] is the decimal
    [m * 10^e]; the client never computes with one. *)
Inductive value : Type :=
| VUndefined
| VNull
| VBool (b : bool)
| VNum (m e : Z)
| VStr (s : string)
| VArr (l : list value)
| VObj (o : list (string * value)).

(** [o.k] on an object: [undefined] for a missing property. *)
Definition prop (o : obj value) (k : string) : value :=
  match obj_get k o with
  | Some v => v
  | None => VUndefined
  end.

(** ToBoolean *)
Definition truthy (v : value) : bool :=
  match v with
  | VUndefined | VNull => false
  | VBool b => b
  | VNum m _ => negb (Z.eqb m 0)
  | VStr s => negb (String.eqb s "")
  | VArr _ | VObj _ => true
  end.

(** [v === w] where one side is a primitive; two arrays or objects are
    compared by reference, and the program never compares a reference with
    itself. *)
Definition strict_eq (v w : value) : bool :=
  match v, w with
  | VUndefined, VUndefined => true
  | VNull, VNull => true
  | VBool a, VBool b => Bool.eqb a b
  | VNum m e, VNum m' e' => Z.eqb (m * 10 ^ (e - Z.min e e')) (m' * 10 ^ (e' - Z.min e e'))
  | VStr a, VStr b => String.eqb a b
  | _, _ => false
  end.

(** [v.toLowerCase()]: a TypeError unless [v] is a string ([undefined] and
    [null] have no properties, the other values no such method). *)
Definition toLowerCase_of (v : value) : result string :=
  match v with
  | VStr s => Ok (JsString.toLowerCase s)
  | _ => Throw TypeError
  end.

(** [a[i]] on an array of strings: [undefined] out of range. *)
Definition index_str (a : list string) (i : nat) : value :=
  match nth_error a i with
  | Some s => VStr s
  | None => VUndefined
  end.


(** ** The constants of the component *)

Definition API_BASE_URL : string := "http://localhost:8000".

(** Tactical positions on the pitch: slot, then [top] and [left]. *)
Definition FORMATION_433 : obj (string * string) :=
  [ ("GK",  ("88%", "50%"));
    ("RB",  ("70%", "85%"));
    ("RCB", ("75%", "62%"));
    ("LCB", ("75%", "38%"));
    ("LB",  ("70%", "15%"));
    ("RCM", ("50%", "72%"));
    ("CDM", ("55%", "50%"));
    ("LCM", ("50%", "28%"));
    ("RW",  ("25%", "80%"));
    ("ST",  ("18%", "50%"));
    ("LW",  ("25%", "20%")) ].

Definition TEAM_A_DEFAULT : list string :=
  [ "Alisson"; "Virgil van Dijk"; "Michael Carrick";
    "Damien Delaney"; "Andrew Robertson"; "Alexis Mac Allister";
    "Dominik Szoboszlai"; "Ryan Gravenberch"; "Mohamed Salah";
    ("Luis D" ++ JsString.unit 237 ++ "az")%string;
    ("Darwin N" ++ JsString.unit 250 ++ JsString.unit 241 ++ "ez")%string ].

Definition TEAM_B_DEFAULT : list string :=
  [ "Ederson"; "Malo Gusto"; "Manuel Akanji";
    "Kyle Walker"; "Josko Gvardiol"; "Rodri";
    "Kevin De Bruyne"; "Bernardo Silva"; "Phil Foden";
    "Jeremy Doku"; "Erling Haaland" ].

Definition FORMATION_ORDER : list string :=
  [ "GK"; "RB"; "RCB"; "LCB"; "LB";
    "RCM"; "CDM"; "LCM";
    "RW"; "ST"; "LW" ].

(** The [teamId] props of the two [Pitch] elements. *)
Definition TEAM_IDS : list string := [ "teamA"; "teamB" ].

(** ** The state of [App] *)

(** A player record of the catalog: an object whose fields are read by
    name. *)
Definition Player : Type := obj value.

Record ActiveSlot : Type := mkActiveSlot { team : string; pos : string }.

Record State : Type := mkState {
  playersDb : list Player;
  lineups : obj (obj Player);
  activeSlot : option ActiveSlot;
  searchTerm : string;
  prediction : value;
  loading : bool
}.

(** The six [useState] initial values. *)
Definition initial : State :=
  {| playersDb := [];
     lineups := [ ("teamA", []); ("teamB", []) ];
     activeSlot := None;
     searchTerm := "";
     prediction := VNull;
     loading := false |}.

Definition setPlayersDb (x : list Player) (s : State) : State :=
  mkState x (lineups s) (activeSlot s) (searchTerm s) (prediction s) (loading s).
Definition setLineups (f : obj (obj Player) -> obj (obj Player)) (s : State)
  : State :=
  mkState (playersDb s) (f (lineups s)) (activeSlot s) (searchTerm s)
          (prediction s) (loading s).
Definition setActiveSlot (x : option ActiveSlot) (s : State) : State :=
  mkState (playersDb s) (lineups s) x (searchTerm s) (prediction s) (loading s).
Definition setSearchTerm (x : string) (s : State) : State :=
  mkState (playersDb s) (lineups s) (activeSlot s) x (prediction s) (loading s).
Definition setPrediction (x : value) (s : State) : State :=
  mkState (playersDb s) (lineups s) (activeSlot s) (searchTerm s) x (loading s).
Definition setLoading (x : bool) (s : State) : State :=
  mkState (playersDb s) (lineups s) (activeSlot s) (searchTerm s)
          (prediction s) x.

(** ** The outside world *)

Record Request : Type := mkRequest {
  url : string;
  method : string;
  headers : list (string * string);
  body : value
}.

(** What a handler does besides updating the state. *)
Inductive Effect : Type :=
| Alert (msg : string)
| Fetch (r : Request)
| ConsoleLog (msg : string)
| ConsoleError (msg : string).

(** What comes back for a [fetch] followed by [json()]: the promise of
    [fetch] is rejected, or a response arrives with its HTTP status and a
    body that [json()] parses ([Some]) or rejects ([None]). *)
Inductive Reply : Type :=
| Unreachable
| Response (status : Z) (json : option value).

(** The answer of [GET /players], taken at its contract: a document whose
    [players] field is an array of records. *)
Inductive PlayersReply : Type :=
| PlayersFailed
| PlayersData (players : list Player).

(** ** The handlers *)

(** The effect that loads the players. *)
Definition loadPlayers (reply : PlayersReply) (s : State)
  : State * list Effect :=
  let req := mkRequest (API_BASE_URL ++ "/players")%string "GET" [] VUndefined in
  match reply with
  | PlayersData players =>
      (setPlayersDb players s, [Fetch req; ConsoleLog "Players loaded:"])
  | PlayersFailed =>
      (s, [Fetch req; ConsoleError "Connection to API failed:"])
  end.

Definition selectPlayer (player : Player) (s : State) : State :=
  match activeSlot s with
  | None => s
  | Some a =>
      setSearchTerm ""
        (setActiveSlot None
           (setLineups
              (fun prev =>
                 obj_set (team a)
                         (obj_set (pos a) player (spread (obj_get (team a) prev)))
                         prev)
              s))
  end.

(** An array element under [JSON.stringify]: [undefined] is written as
    [null]; the other values come from a parsed document and are written as
    they are. *)
Definition stringify_elem (v : value) : value :=
  match v with
  | VUndefined => VNull
  | _ => v
  end.

(** The document [JSON.stringify({ team_a_players, team_b_players })]. *)
Definition predict_body (teamA teamB : list value) : value :=
  VObj [ ("team_a_players", VArr (map stringify_elem teamA));
         ("team_b_players", VArr (map stringify_elem teamB)) ].

Definition predict_request (teamA teamB : list value) : Request :=
  mkRequest (API_BASE_URL ++ "/predict")%string "POST"
            [ ("Content-Type", "application/json") ]
            (predict_body teamA teamB).

(** [handlePredict], run to its end against the reply of the server. A
    TypeError before the first [await] leaves state and world as they are. *)
Definition handlePredict (reply : Reply) (s : State)
  : result (State * list Effect) :=
  a <- Object_values (obj_get "teamA" (lineups s)) ;;
  let teamA := map (fun p => prop p "name") a in
  b <- Object_values (obj_get "teamB" (lineups s)) ;;
  let teamB := map (fun p => prop p "name") b in
  if (List.length teamA <? 11) || (List.length teamB <? 11) then
    Ok (s, [Alert "Both teams must have 11 players selected!"])
  else
    let s1 := setLoading true s in
    let req := Fetch (predict_request teamA teamB) in
    match reply with
    | Response _ (Some result) =>
        Ok (setLoading false (setPrediction result s1), [req])
    | _ =>
        Ok (setLoading false s1,
            [req; Alert "Failed to reach prediction engine."])
    end.

(** The callback of [filteredPlayers]; [||] evaluates its right operand
    only when the left one is false. *)
Definition matches_search (term : string) (p : Player) : result bool :=
  n <- toLowerCase_of (prop p "name") ;;
  if JsString.includes n (JsString.toLowerCase term) then Ok true
  else
    t <- toLowerCase_of (prop p "team") ;;
    Ok (JsString.includes t (JsString.toLowerCase term)).

(** The verdict of the callback where it does not throw. *)
Definition search_verdict (term : string) (p : Player) : bool :=
  match matches_search term p with
  | Ok b => b
  | Throw _ => false
  end.

Definition filteredPlayers (s : State) : result (list Player) :=
  filterM (matches_search (searchTerm s)) (playersDb s).

Definition getLogoUrl (teamName : value) : result string :=
  if negb (truthy teamName) then Ok "/logos/default.png"
  else
    lower <- toLowerCase_of teamName ;;
    let fileName := JsString.replace_spaces lower "-" in
    Ok ("/logos/" ++ fileName ++ ".football-logos.cc.svg")%string.

(** The body of the [forEach] of [fillTeamWithDefaults]; a record found by
    [find] is an object, hence truthy. *)
Definition fill_slot (db : list Player) (defaultNames : list string)
  (filledTeam : obj Player) (pos_index : string * nat) : obj Player :=
  let playerName := index_str defaultNames (snd pos_index) in
  match find (fun p => strict_eq (prop p "name") playerName) db with
  | Some playerObj => obj_set (fst pos_index) playerObj filledTeam
  | None => filledTeam
  end.

(** The elements of an array with their indices, as [forEach] passes them. *)
Definition entries {A : Type} (l : list A) : list (A * nat) :=
  combine l (seq 0 (List.length l)).

Definition fillTeamWithDefaults (teamKey : string) (defaultNames : list string)
  (s : State) : State :=
  let filledTeam :=
    fold_left (fill_slot (playersDb s) defaultNames)
              (entries FORMATION_ORDER) [] in
  setLineups (fun prev => obj_set teamKey filledTeam prev) s.

(** The loop of [fillTeamWithDefaults] seen entry by entry: the player it
    finds for the entry [(slot, index)]. *)
Definition found (db : list Player) (names : list string) (e : string * nat)
  : option Player :=
  find (fun p => strict_eq (prop p "name") (index_str names (snd e))) db.

(** The property the loop adds for one entry. *)
Definition filled_entry (db : list Player) (names : list string)
  (e : string * nat) : obj Player :=
  match found db names e with
  | Some p => [(fst e, p)]
  | None => []
  end.

(** ** The player-selection modal *)

(** What one row of the modal shows. *)
Record Row : Type := mkRow {
  row_key : value;
  row_name : value;
  row_logo : string;
  row_team : value;
  row_badge : value;
  row_age : value
}.

Definition renderRow (player : Player) : result Row :=
  logo <- getLogoUrl (prop player "team") ;;
  Ok {| row_key := prop player "name";
        row_name := prop player "name";
        row_logo := logo;
        row_team := prop player "team";
        row_badge := prop player "pos";
        row_age := prop player "age" |}.

Fixpoint mapM {A B : Type} (f : A -> result B) (l : list A) : result (list B) :=
  match l with
  | [] => Ok []
  | x :: l' =>
      y <- f x ;;
      r <- mapM f l' ;;
      Ok (y :: r)
  end.

(** The modal as [App] computes it: absent while [activeSlot] is null,
    else the slot in its title and one row per filtered player. Whether
    React accepts the children of a row is told by [valid_child]. *)
Definition renderModal (s : State) : result (option (string * list Row)) :=
  filtered <- filteredPlayers s ;;
  match activeSlot s with
  | None => Ok None
  | Some a =>
      rows <- mapM renderRow filtered ;;
      Ok (Some (pos a, rows))
  end.

(** The result panel as [App] computes it: asked for when [prediction] is
    truthy, with the two expected-goals fields it reads. Whether React
    accepts the two fields as children is told by [valid_child]. *)
Definition renderPrediction (s : State) : option (value * value) :=
  if truthy (prediction s) then
    match prediction s with
    | VObj o => Some (prop o "team_a_expected_goals",
                      prop o "team_b_expected_goals")
    | _ => Some (VUndefined, VUndefined)
    end
  else None.

(** ** What a user can do *)

(** One step of the application: the players arrive, a slot of a pitch is
    clicked, the modal is closed, the search box is edited, a row of the
    modal is clicked, a fill button is pressed, or a prediction is run. *)
Inductive step : State -> State -> Prop :=
| step_load s reply :
    step s (fst (loadPlayers reply s))
| step_open s teamId p :
    In teamId TEAM_IDS -> In p (obj_keys FORMATION_433) ->
    step s (setActiveSlot (Some (mkActiveSlot teamId p)) s)
| step_close s :
    step s (setActiveSlot None s)
| step_search s term :
    step s (setSearchTerm term s)
| step_select s filtered player :
    filteredPlayers s = Ok filtered -> In player filtered ->
    step s (selectPlayer player s)
| step_fill_home s :
    step s (fillTeamWithDefaults "teamA" TEAM_A_DEFAULT s)
| step_fill_away s :
    step s (fillTeamWithDefaults "teamB" TEAM_B_DEFAULT s)
| step_predict s reply s' effects :
    handlePredict reply s = Ok (s', effects) ->
    step s s'.

Inductive reachable : State -> Prop :=
| reach_initial : reachable initial
| reach_step s s' : reachable s -> step s s' -> reachable s'.

(** The requests and the alerts among the effects of a handler. *)
Fixpoint requests (effects : list Effect) : list Request :=
  match effects with
  | [] => []
  | Fetch r :: rest => r :: requests rest
  | _ :: rest => requests rest
  end.

Fixpoint alerts (effects : list Effect) : list string :=
  match effects with
  | [] => []
  | Alert msg :: rest => msg :: alerts rest
  | _ :: rest => alerts rest
  end.

(** ** The properties the specification words name *)

Module Spec.

(** [needle] occurs in [hay]: some stretch of [hay] is [needle]. *)
Definition occurs (hay needle : string) : Prop :=
  exists before after : string, hay = (before ++ needle ++ after)%string.

(** The test of the search: the lowered [needle] occurs in the lowered
    [hay], both lowered by [toLowerCase]. *)
Definition found_lowered (hay needle : string) : Prop :=
  occurs (JsString.toLowerCase hay) (JsString.toLowerCase needle).

(** A player passes the search by its name or by its team. *)
Definition lower_matches (term : string) (p : Player) : Prop :=
  (exists n, prop p "name" = VStr n /\ found_lowered n term)
  \/ (exists t, prop p "team" = VStr t /\ found_lowered t term).

(** [l1] holds elements of [l2] in the order they have there. *)
Inductive subseq {A : Type} : list A -> list A -> Prop :=
| subseq_nil : subseq [] []
| subseq_skip x l1 l2 : subseq l1 l2 -> subseq l1 (x :: l2)
| subseq_keep x l1 l2 : subseq l1 l2 -> subseq (x :: l1) (x :: l2).

Fixpoint all_spaces (s : string) : bool :=
  match s with
  | EmptyString => true
  | String c s' => JsString.is_space c && all_spaces s'
  end.

Definition starts_with_space (s : string) : bool :=
  match s with
  | EmptyString => false
  | String c _ => JsString.is_space c
  end.

(** [t] is [s] with each maximal run of whitespace replaced by one ["-"]:
    [s] is cut into the code units that are no whitespace, which stay, and
    the runs of whitespace that no whitespace follows, which become a
    single ["-"] each. *)
Inductive dashed : string -> string -> Prop :=
| dashed_end : dashed "" ""
| dashed_unit c s t :
    JsString.is_space c = false -> dashed s t ->
    dashed (String c s) (String c t)
| dashed_run run s t :
    run <> "" -> all_spaces run = true -> starts_with_space s = false ->
    dashed s t ->
    dashed (run ++ s) ("-" ++ t).

(** The name of a player record is the value [n]. *)
Definition has_name (p : Player) (n : value) : Prop := prop p "name" = n.

(** [p] is the first entry of the database whose name is [n]. *)
Definition first_with_name (db : list Player) (n : value) (p : Player) : Prop :=
  exists before after,
    db = before ++ p :: after
    /\ has_name p n
    /\ forall q, In q before -> ~ has_name q n.

(** The names of the players a side holds, slot by slot, as they are
    written into a request. *)
Definition selected_names (side : obj Player) : list value :=
  map (fun p => stringify_elem (prop p "name")) (obj_values side).

(** The request of a prediction for a home and an away side. *)
Definition prediction_request (a b : obj Player) : Request :=
  {| url := "http://localhost:8000/predict";
     method := "POST";
     headers := [ ("Content-Type", "application/json") ];
     body := VObj [ ("team_a_players", VArr (selected_names a));
                    ("team_b_players", VArr (selected_names b)) ] |}.

(** Every player a side holds carries a name that is a string. *)
Definition named_side (side : obj Player) : Prop :=
  forall k p, In (k, p) side -> exists n, prop p "name" = VStr n.

Definition lineups_named (s : State) : Prop :=
  forall t side, obj_get t (lineups s) = Some side -> named_side side.

(** The fixed set of the eleven roles. *)
Definition ROLES : list string :=
  [ "GK"; "RB"; "RCB"; "LCB"; "LB"; "RCM"; "CDM"; "LCM"; "RW"; "ST"; "LW" ].

(** One side's lineup: every slot key is a role, no slot occurs twice, and
    at most eleven players are held. *)
Definition lineup_ok (side : obj Player) : Prop :=
  (forall k, In k (obj_keys side) -> In k ROLES)
  /\ NoDup (obj_keys side)
  /\ List.length (obj_values side) <= 11.

(** The lineup state: a home and an away side, both well formed. *)
Definition slots_ok (s : State) : Prop :=
  exists a b,
    lineups s = [ ("teamA", a); ("teamB", b) ]
    /\ lineup_ok a /\ lineup_ok b.

(** The active slot, when there is one, is a slot of one of the pitches. *)
Definition active_ok (s : State) : Prop :=
  forall a, activeSlot s = Some a -> In (team a) TEAM_IDS /\ In (pos a) ROLES.

(** The record of a player is well typed: its name and its team are
    strings. *)
Definition named (p : Player) : Prop :=
  exists n t, prop p "name" = VStr n /\ prop p "team" = VStr t.

End Spec.

(** ** A session of the application *)

Module Scenario.

Definition record (name team_name slot : string) : Player :=
  [ ("name", VStr name); ("team", VStr team_name);
    ("pos", VStr slot); ("age", VNum 27 0) ].

(** A catalog that holds the twenty-two default players. *)
Definition catalog : list Player :=
  map (fun n => record n "Liverpool" "MF") TEAM_A_DEFAULT
  ++ map (fun n => record n "Manchester City" "MF") TEAM_B_DEFAULT.

Definition alisson : Player := record "Alisson" "Liverpool" "MF".

(** The players are loaded and both fill buttons are pressed. *)
Definition loaded : State := fst (loadPlayers (PlayersData catalog) initial).
Definition home_filled : State :=
  fillTeamWithDefaults "teamA" TEAM_A_DEFAULT loaded.
Definition both_filled : State :=
  fillTeamWithDefaults "teamB" TEAM_B_DEFAULT home_filled.

(** Then the home striker slot is opened and the home goalkeeper is picked
    for it, and the away goalkeeper slot is opened and the same player is
    picked again. *)
Definition striker_open : State :=
  setActiveSlot (Some (mkActiveSlot "teamA" "ST")) both_filled.
Definition striker_picked : State := selectPlayer alisson striker_open.
Definition keeper_open : State :=
  setActiveSlot (Some (mkActiveSlot "teamB" "GK")) striker_picked.
Definition keeper_picked : State := selectPlayer alisson keeper_open.

Definition home_names : list value :=
  [ VStr "Alisson"; VStr "Virgil van Dijk"; VStr "Michael Carrick";
    VStr "Damien Delaney"; VStr "Andrew Robertson";
    VStr "Alexis Mac Allister"; VStr "Dominik Szoboszlai";
    VStr "Ryan Gravenberch"; VStr "Mohamed Salah";
    VStr "Alisson";
    VStr ("Darwin N" ++ JsString.unit 250 ++ JsString.unit 241 ++ "ez") ].

Definition away_names : list value :=
  [ VStr "Alisson"; VStr "Malo Gusto"; VStr "Manuel Akanji";
    VStr "Kyle Walker"; VStr "Josko Gvardiol"; VStr "Rodri";
    VStr "Kevin De Bruyne"; VStr "Bernardo Silva"; VStr "Phil Foden";
    VStr "Jeremy Doku"; VStr "Erling Haaland" ].

(** The two sides once both fill buttons were pressed. *)
Definition home_side : obj Player :=
  spread (obj_get "teamA" (lineups both_filled)).
Definition away_side : obj Player :=
  spread (obj_get "teamB" (lineups both_filled)).

(** The modal over a catalog of one record. *)
Definition modal_open (p : Player) : State :=
  setActiveSlot (Some (mkActiveSlot "teamA" "GK"))
                (fst (loadPlayers (PlayersData [p]) initial)).

(** An answer of the server that reports a validation failure. *)
Definition error_object : value :=
  VObj [ ("detail", VStr "Unknown player: Damien Delaney") ].

(** The request sent after the two picks, and the state once the server
    has answered it with the error object. *)
Definition duplicate_request : Request :=
  {| url := "http://localhost:8000/predict";
     method := "POST";
     headers := [ ("Content-Type", "application/json") ];
     body := VObj [ ("team_a_players", VArr home_names);
                    ("team_b_players", VArr away_names) ] |}.

Definition answered : State :=
  setLoading false (setPrediction error_object (setLoading true keeper_picked)).

(** The modal is open and the search box holds a team name in capitals. *)
Definition searching : State := setSearchTerm "LIVER" striker_open.

(** A record as the interface of [GET /players] words it, the position
    under the key [position], and the row the modal shows for it. *)
Definition positioned : Player :=
  [ ("name", VStr "Alisson"); ("team", VStr "Liverpool");
    ("position", VStr "GK"); ("age", VNum 31 0) ].

Definition positioned_row : Row :=
  {| row_key := VStr "Alisson";
     row_name := VStr "Alisson";
     row_logo := "/logos/liverpool.football-logos.cc.svg";
     row_team := VStr "Liverpool";
     row_badge := VUndefined;
     row_age := VNum 31 0 |}.

End Scenario.

(** ** The Statistic Blender *)

Module Blender.

Local Open Scope Q_scope.

(** Modelled from the spec: the Statistic Blender of section 4.1 is not
    among the sources. The sum of the observations of a series. *)
Definition total (series : list Q) : Q := fold_right Qplus 0 series.

(** Modelled from the spec: the arithmetic mean of a series of
    observations of the Blender, which is not among the sources. *)
Definition mean (series : list Q) : Q :=
  total series / inject_Z (Z.of_nat (List.length series)).

(** Modelled from the spec: the season baseline of the Blender (not among
    the sources), the mean over the whole observed series. *)
Definition season_baseline (series : list Q) : Q := mean series.

(** Modelled from the spec: the window of the Blender (not among the
    sources), the most recent [window] observations of a series ordered by
    match, all of them when there are fewer. *)
Definition recent (window : nat) (series : list Q) : list Q :=
  skipn (List.length series - window) series.

(** Modelled from the spec: the rolling form of the Blender (not among the
    sources), the mean over the most recent window. *)
Definition rolling_form (window : nat) (series : list Q) : Q :=
  mean (recent window series).

(** Modelled from the spec: the blend of the Blender (not among the
    sources), [v = alpha * rolling_form + (1 - alpha) * season_baseline]. *)
Definition blend (alpha rolling baseline : Q) : Q :=
  alpha * rolling + (1 - alpha) * baseline.

(** Modelled from the spec: the contract of the Blender (not among the
    sources) for one metric of one player; a metric without observations
    is unknown. *)
Definition blended (alpha : Q) (window : nat) (series : list Q) : option Q :=
  match series with
  | [] => None
  | _ => Some (blend alpha (rolling_form window series) (season_baseline series))
  end.

(** A series of six matches whose season mean is 0.40 and whose mean over
    the last two matches is 0.60. *)
Definition sample_series : list Q :=
  [ 3 # 10; 3 # 10; 3 # 10; 3 # 10; 6 # 10; 6 # 10 ].

End Blender.


(** ** Children of an element *)

(** What React accepts as a child of an element: text, a number, nothing
    ([null], [undefined], a boolean) or an array of such. A plain object is
    refused, and the render fails. *)
Fixpoint valid_child (v : value) : bool :=
  match v with
  | VObj _ => false
  | VArr l => forallb valid_child l
  | _ => true
  end.

(** ** The search beyond Latin-1 *)

(** The callback of [filteredPlayers] once more, on strings of 16-bit code
    units, for names that the strings above cannot hold. [toLowerCase] is
    the case conversion of the Unicode standard that ECMAScript prescribes,
    with its one context rule that no language tag guards, the final
    sigma. It is modelled on Basic Latin and on the Greek capital and
    small letters, where it leaves the length of a string alone; a string
    with another code unit is outside the model ([None]). *)
Module Utf16.

Definition ustring : Type := list N.

Definition latin_capital (u : N) : bool := ((0x41 <=? u) && (u <=? 0x5A))%N.
Definition latin_small (u : N) : bool := ((0x61 <=? u) && (u <=? 0x7A))%N.

(** U+0391 to U+03A9; U+03A2 is not assigned. *)
Definition greek_capital (u : N) : bool :=
  ((0x391 <=? u) && (u <=? 0x3A9) && negb (u =? 0x3A2))%N.

(** U+03B1 to U+03C9, the final sigma U+03C2 among them. *)
Definition greek_small (u : N) : bool := ((0x3B1 <=? u) && (u <=? 0x3C9))%N.

Definition in_model (u : N) : bool :=
  (u <? 0x80)%N || greek_capital u || greek_small u.

(** The property Cased of the standard, on the code units of the model. *)
Definition cased (u : N) : bool :=
  latin_capital u || latin_small u || greek_capital u || greek_small u.

(** The property Case_Ignorable on the code units of the model: the
    apostrophe, the full stop, the colon, the circumflex and the grave
    accent. *)
Definition case_ignorable (u : N) : bool :=
  ((u =? 0x27) || (u =? 0x2E) || (u =? 0x3A) || (u =? 0x5E) || (u =? 0x60))%N.

(** The simple lower-case mapping: a capital is moved by 32. *)
Definition simple_lower (u : N) : N :=
  if latin_capital u || greek_capital u then (u + 32)%N else u.

(** Going away from a code unit, over any case-ignorable ones, a cased
    letter comes first. *)
Fixpoint cased_next (units : list N) : bool :=
  match units with
  | [] => false
  | u :: rest => if case_ignorable u then cased_next rest else cased u
  end.

(** The condition Final_Sigma for a sigma between the code units before it
    (the nearest first) and those after it: a cased letter before, none
    after. *)
Definition final_sigma (before_rev after : list N) : bool :=
  cased_next before_rev && negb (cased_next after).

Fixpoint lower_from (before_rev s : list N) : list N :=
  match s with
  | [] => []
  | u :: rest =>
      (if (u =? 0x3A3)%N && final_sigma before_rev rest
       then 0x3C2%N else simple_lower u)
      :: lower_from (u :: before_rev) rest
  end.

Definition toLowerCase (s : ustring) : option ustring :=
  if forallb in_model s then Some (lower_from [] s) else None.

Fixpoint prefix (p s : ustring) : bool :=
  match p, s with
  | [], _ => true
  | _ :: _, [] => false
  | a :: p', b :: s' => (a =? b)%N && prefix p' s'
  end.

(** [s.includes(sub)] *)
Fixpoint includes (s sub : ustring) : bool :=
  if prefix sub s then true
  else match s with
       | [] => false
       | _ :: s' => includes s' sub
       end.

(** A player record with its name and its team. *)
Definition Player : Type := (ustring * ustring)%type.

(** The callback of the filter, lines 95 and 96. *)
Definition matches_search (term : ustring) (p : Player) : option bool :=
  match toLowerCase (fst p), toLowerCase term with
  | Some n, Some t =>
      if includes n t then Some true
      else match toLowerCase (snd p) with
           | Some m => Some (includes m t)
           | None => None
           end
  | _, _ => None
  end.

Fixpoint filter (f : Player -> option bool) (l : list Player)
  : option (list Player) :=
  match l with
  | [] => Some []
  | x :: l' =>
      match f x, filter f l' with
      | Some b, Some r => Some (if b then x :: r else r)
      | _, _ => None
      end
  end.

Definition filteredPlayers (searchTerm : ustring) (playersDb : list Player)
  : option (list Player) :=
  filter (matches_search searchTerm) playersDb.

(** The name of three Greek capitals alpha, sigma, alpha, a team, and the
    search term alpha, sigma. *)
Definition asa : ustring := [ 0x391; 0x3A3; 0x391 ]%N.
Definition as_ : ustring := [ 0x391; 0x3A3 ]%N.
Definition club : ustring := [ 0x46; 0x43 ]%N.

End Utf16.

(** ** The pitch *)

Module JsWords.

(** [s.split(sep)] for a separator of one code unit: the stretches between
    the occurrences of the separator, the empty ones too; never an empty
    array. *)
Fixpoint split (sep : ascii) (s : string) : list string :=
  match s with
  | EmptyString => [ EmptyString ]
  | String c s' =>
      if Ascii.eqb c sep then EmptyString :: split sep s'
      else match split sep s' with
           | w :: ws => String c w :: ws
           | [] => [ String c EmptyString ]
           end
  end.

(** The value of [a.pop()]: the last element, [undefined] ([None]) for an
    empty array. *)
Fixpoint pop (a : list string) : option string :=
  match a with
  | [] => None
  | [ x ] => Some x
  | _ :: a' => pop a'
  end.

(** [s.substring(start, end)]: the two indices are swapped when they come
    in the wrong order and cut at the length of the string. *)
Definition substring (start end_ : nat) (s : string) : string :=
  String.substring (Nat.min start end_)
                   (Nat.max start end_ - Nat.min start end_) s.

(** Some code unit of the string is whitespace. *)
Fixpoint some_space (s : string) : bool :=
  match s with
  | EmptyString => false
  | String c s' => JsString.is_space c || some_space s'
  end.

(** Some code unit of the string is [c]. *)
Fixpoint has_unit (c : ascii) (s : string) : bool :=
  match s with
  | EmptyString => false
  | String d s' => Ascii.eqb d c || has_unit c s'
  end.

End JsWords.

(** What one marker of a pitch shows: its slot, its place, whether it holds
    a player, the text in the disc and the text under it. *)
Record Marker : Type := mkMarker {
  marker_key : string;
  marker_top : string;
  marker_left : string;
  marker_filled : bool;
  marker_label : string;
  marker_caption : string
}.

(** [name.split(' ').pop().substring(0, 3)] *)
Definition short_label (name : string) : result string :=
  match JsWords.pop (JsWords.split " "%char name) with
  | Some word => Ok (JsWords.substring 0 3 word)
  | None => Throw TypeError
  end.

(** The callback of the [map] over [Object.keys(FORMATION_433)] in [Pitch],
    for the side [lineups[teamId]]: a player in the slot is an object, hence
    truthy, and its name must be a string to have [split]. *)
Definition renderMarker (side : obj Player) (slot : string) : result Marker :=
  let player := obj_get slot side in
  match obj_get slot FORMATION_433 with
  | None => Throw TypeError
  | Some (top_, left_) =>
      match player with
      | Some record =>
          match prop record "name" with
          | VStr name =>
              label <- short_label name ;;
              Ok (mkMarker slot top_ left_ true label name)
          | _ => Throw TypeError
          end
      | None => Ok (mkMarker slot top_ left_ false slot "+ ADD")
      end
  end.

(** The markers the function [Pitch] computes for the given [teamId];
    reading a slot of a side that does not exist is a TypeError. React
    calls [Pitch] only after the body of [App], [filteredPlayers] in it,
    has run without an exception. *)
Definition renderPitch (teamId : string) (s : State) : result (list Marker) :=
  match obj_get teamId (lineups s) with
  | Some side => mapM (renderMarker side) (obj_keys FORMATION_433)
  | None => Throw TypeError
  end.

(** A click on the marker of a slot. *)
Definition clickMarker (teamId slot : string) (s : State) : State :=
  setActiveSlot (Some (mkActiveSlot teamId slot)) s.


(** ** A second session *)

Module Tour.

(** A catalog of one record that has no team. *)
Definition teamless : Player := [ ("name", VStr "Ederson"); ("team", VNull) ].
Definition teamless_loaded : State := setPlayersDb [ teamless ] initial.

(** The home side after the fill, written out. *)
Definition home_eleven : obj Player :=
  combine FORMATION_ORDER
          (map (fun n => Scenario.record n "Liverpool" "MF") TEAM_A_DEFAULT).

(** A prediction as the server words it. *)
Definition forecast : list (string * value) :=
  [ ("team_a_expected_goals", VNum 17 (-1));
    ("team_b_expected_goals", VNum 9 (-1));
    ("win_probability", VNum 52 (-2)) ].

(** The state once the request of the filled pitches was answered with
    that prediction. *)
Definition forecast_shown : State :=
  setLoading false
    (setPrediction (VObj forecast) (setLoading true Scenario.both_filled)).

(** A catalog of two goalkeepers. *)
Definition ederson : Player := Scenario.record "Ederson" "Manchester City" "GK".
Definition pair_loaded : State :=
  setPlayersDb [ Scenario.alisson; ederson ] initial.

(** The markers of a pitch without players. *)
Definition empty_markers : list Marker :=
  map (fun e => mkMarker (fst e) (fst (snd e)) (snd (snd e)) false (fst e)
                         "+ ADD")
      FORMATION_433.

End Tour.

(* ===================================================================== *)
(** * Theorems *)
(* ===================================================================== *)

(** ** Objects *)

Section ObjFacts.
Context {A : Type}.
Implicit Types (k : string) (v : A) (o : obj A).

Lemma obj_get_set_same k v o : obj_get k (obj_set k v o) = Some v.
Proof.
  induction o as [|[k' v'] o IH]; simpl.
  - now rewrite String.eqb_refl.
  - destruct (String.eqb k k') eqn:E; simpl; rewrite E; auto.
Qed.

Lemma obj_get_set_other k k' v o :
  k' <> k -> obj_get k' (obj_set k v o) = obj_get k' o.
Proof.
  intros Hne. induction o as [|[k0 v0] o IH]; simpl.
  - apply String.eqb_neq in Hne. now rewrite Hne.
  - destruct (String.eqb k k0) eqn:E; simpl.
    + apply String.eqb_eq in E. subst k0.
      apply String.eqb_neq in Hne. now rewrite Hne.
    + now rewrite IH.
Qed.

Lemma obj_get_in_keys k v o : obj_get k o = Some v -> In k (obj_keys o).
Proof.
  induction o as [|[k' v'] o IH]; simpl; [discriminate|].
  destruct (String.eqb k k') eqn:E; intros H.
  - apply String.eqb_eq in E. now left.
  - right. now apply IH.
Qed.

Lemma obj_get_none k o : ~ In k (obj_keys o) -> obj_get k o = None.
Proof.
  induction o as [|[k' v'] o IH]; simpl; [reflexivity|].
  intros H. destruct (String.eqb k k') eqn:E.
  - apply String.eqb_eq in E. subst. tauto.
  - apply IH. tauto.
Qed.

(** Writing a property the object has keeps its keys; a new key goes last. *)
Lemma obj_keys_set_old k v o :
  In k (obj_keys o) -> obj_keys (obj_set k v o) = obj_keys o.
Proof.
  induction o as [|[k' v'] o IH]; simpl; [tauto|].
  intros H. destruct (String.eqb k k') eqn:E; simpl; [reflexivity|].
  f_equal. apply IH. destruct H as [H|H]; [|exact H].
  subst. now rewrite String.eqb_refl in E.
Qed.

Lemma obj_keys_set_new k v o :
  ~ In k (obj_keys o) -> obj_set k v o = o ++ [(k, v)].
Proof.
  induction o as [|[k' v'] o IH]; simpl; [reflexivity|].
  intros H. destruct (String.eqb k k') eqn:E.
  - apply String.eqb_eq in E. subst. tauto.
  - f_equal. apply IH. tauto.
Qed.

Lemma obj_keys_set_in k v o x :
  In x (obj_keys (obj_set k v o)) -> x = k \/ In x (obj_keys o).
Proof.
  induction o as [|[k' v'] o IH]; simpl.
  - intros [H|[]]; auto.
  - destruct (String.eqb k k') eqn:E; simpl; intros [H|H]; auto.
    destruct (IH H); auto.
Qed.

Lemma obj_keys_set_nodup k v o :
  NoDup (obj_keys o) -> NoDup (obj_keys (obj_set k v o)).
Proof.
  induction o as [|[k' v'] o IH]; simpl; intros H.
  - constructor; [intros []|constructor].
  - destruct (String.eqb k k') eqn:E; simpl; [exact H|].
    inversion H as [|? ? Hn Hd]; subst. constructor; [|now apply IH].
    intros Hin. apply obj_keys_set_in in Hin. destruct Hin as [->|Hin].
    + now rewrite String.eqb_refl in E.
    + contradiction.
Qed.

Lemma obj_values_length o : List.length (obj_values o) = List.length (obj_keys o).
Proof. unfold obj_values, obj_keys. now rewrite !length_map. Qed.

End ObjFacts.

(** ** The handlers and the state they leave *)

Lemma roles_nodup : NoDup Spec.ROLES.
Proof.
  unfold Spec.ROLES.
  repeat (constructor; [simpl; intuition discriminate|]). constructor.
Qed.

Lemma formation_keys : obj_keys FORMATION_433 = Spec.ROLES.
Proof. reflexivity. Qed.

Lemma formation_order : FORMATION_ORDER = Spec.ROLES.
Proof. reflexivity. Qed.

(** Distinct role keys are at most eleven. *)
Lemma roles_bound (side : obj Player) :
  (forall k, In k (obj_keys side) -> In k Spec.ROLES) ->
  NoDup (obj_keys side) ->
  List.length (obj_values side) <= 11.
Proof.
  intros Hin Hnd. rewrite obj_values_length.
  change 11 with (List.length Spec.ROLES).
  apply NoDup_incl_length; [exact Hnd | exact Hin].
Qed.

Lemma lineup_ok_empty : Spec.lineup_ok [].
Proof.
  repeat split; simpl; [tauto | constructor | lia].
Qed.

Lemma lineup_ok_set (side : obj Player) k p :
  Spec.lineup_ok side -> In k Spec.ROLES -> Spec.lineup_ok (obj_set k p side).
Proof.
  intros (Hin & Hnd & _) Hk.
  assert (Hin' : forall x, In x (obj_keys (obj_set k p side)) -> In x Spec.ROLES).
  { intros x Hx. apply obj_keys_set_in in Hx. destruct Hx as [->|Hx]; auto. }
  assert (Hnd' := obj_keys_set_nodup k p side Hnd).
  repeat split; auto using roles_bound.
Qed.

Lemma fill_slots_ok db names entries0 (acc : obj Player) :
  (forall e, In e entries0 -> In (fst e) Spec.ROLES) ->
  Spec.lineup_ok acc ->
  Spec.lineup_ok (fold_left (fill_slot db names) entries0 acc).
Proof.
  revert acc. induction entries0 as [|e es IH]; cbn [fold_left]; intros acc He Hacc.
  - exact Hacc.
  - apply IH; [intros; apply He; now right|].
    unfold fill_slot.
    match goal with |- context [find ?f db] => destruct (find f db) end;
      [|exact Hacc].
    apply lineup_ok_set; [exact Hacc | apply He; now left].
Qed.

Lemma formation_entries_roles e :
  In e (entries FORMATION_ORDER) -> In (fst e) Spec.ROLES.
Proof.
  intros H. unfold entries in H.
  destruct e as [k i]. apply in_combine_l in H. exact H.
Qed.

Lemma team_ids_cases t : In t TEAM_IDS -> t = "teamA" \/ t = "teamB".
Proof. simpl. intuition. Qed.

Lemma selectPlayer_slots_ok player s :
  Spec.slots_ok s -> Spec.active_ok s -> Spec.slots_ok (selectPlayer player s).
Proof.
  intros (a & b & Hl & Ha & Hb) Hact. unfold selectPlayer.
  destruct (activeSlot s) as [slot|] eqn:E; [|exists a, b; auto].
  destruct (Hact slot E) as [Ht Hp].
  unfold Spec.slots_ok. simpl. rewrite Hl.
  destruct (team_ids_cases _ Ht) as [-> | ->]; simpl.
  - exists (obj_set (pos slot) player a), b. auto using lineup_ok_set.
  - exists a, (obj_set (pos slot) player b). auto using lineup_ok_set.
Qed.

Lemma selectPlayer_active_ok player s :
  Spec.active_ok s -> Spec.active_ok (selectPlayer player s).
Proof.
  intros Hact. unfold selectPlayer.
  destruct (activeSlot s) eqn:E; [|exact Hact].
  intros x Hx. simpl in Hx. discriminate.
Qed.

Lemma fillTeamWithDefaults_slots_ok teamKey names s :
  In teamKey TEAM_IDS ->
  Spec.slots_ok s -> Spec.slots_ok (fillTeamWithDefaults teamKey names s).
Proof.
  intros Ht (a & b & Hl & Ha & Hb).
  pose proof (fill_slots_ok (playersDb s) names (entries FORMATION_ORDER) []
                formation_entries_roles lineup_ok_empty) as Hfill.
  unfold Spec.slots_ok, fillTeamWithDefaults. simpl. rewrite Hl.
  destruct (team_ids_cases _ Ht) as [-> | ->]; simpl; eauto.
Qed.

(** What [handlePredict] may change: the prediction and the loading flag. *)
Lemma handlePredict_keeps reply s s' effects :
  handlePredict reply s = Ok (s', effects) ->
  playersDb s' = playersDb s /\ lineups s' = lineups s
  /\ activeSlot s' = activeSlot s /\ searchTerm s' = searchTerm s.
Proof.
  unfold handlePredict.
  destruct (obj_get "teamA" (lineups s)); simpl; [|discriminate].
  destruct (obj_get "teamB" (lineups s)); simpl; [|discriminate].
  destruct (_ || _).
  - intros H; inversion H; subst; auto.
  - destruct reply as [|status [doc|]]; intros H; inversion H; subst; auto.
Qed.

Lemma step_invariant s s' :
  step s s' ->
  Spec.slots_ok s /\ Spec.active_ok s ->
  Spec.slots_ok s' /\ Spec.active_ok s'.
Proof.
  intros Hstep [Hs Ha].
  destruct Hstep as
    [s reply | s teamId p Ht Hp | s | s term | s filtered player Hf Hin
     | s | s | s reply s' effects Hp].
  - destruct reply; simpl; auto.
  - split; [exact Hs|]. intros a Hsome. simpl in Hsome.
    inversion Hsome; subst; cbn [team pos]. split; [exact Ht | exact Hp].
  - split; [exact Hs|]. intros a Hsome. discriminate.
  - auto.
  - auto using selectPlayer_slots_ok, selectPlayer_active_ok.
  - split; [apply fillTeamWithDefaults_slots_ok; simpl; auto | exact Ha].
  - split; [apply fillTeamWithDefaults_slots_ok; simpl; auto | exact Ha].
  - apply handlePredict_keeps in Hp. destruct Hp as (_ & Hl & Hact & _).
    unfold Spec.slots_ok, Spec.active_ok. rewrite Hl, Hact. auto.
Qed.

Lemma reachable_invariant s :
  reachable s -> Spec.slots_ok s /\ Spec.active_ok s.
Proof.
  induction 1 as [|s s' _ IH Hstep].
  - split.
    + exists [], []. auto using lineup_ok_empty.
    + intros a Ha. discriminate.
  - eapply step_invariant; eauto.
Qed.

(** C4. In every state the application reaches, each side's lineup has
    only keys of the fixed set of eleven roles, holds each slot at most
    once and therefore at most eleven players; [selectPlayer], with any
    player, and [fillTeamWithDefaults], for either side and any list of
    default names, lead to such a state again. *)
Theorem lineup_slots_invariant (s : State) :
  reachable s ->
  Spec.slots_ok s
  /\ (forall player, Spec.slots_ok (selectPlayer player s))
  /\ (forall teamKey defaultNames,
        In teamKey TEAM_IDS ->
        Spec.slots_ok (fillTeamWithDefaults teamKey defaultNames s)).
Proof.
  intros Hr. destruct (reachable_invariant s Hr) as [Hs Ha].
  repeat split.
  - exact Hs.
  - intros player. now apply selectPlayer_slots_ok.
  - intros teamKey names Ht. now apply fillTeamWithDefaults_slots_ok.
Qed.

(** C8. With an active slot, [selectPlayer] writes the chosen player to
    that slot of that side, keeps every other slot of the side as the side
    had it before (a side that did not exist has no other slot) and every
    other side, closes the modal and clears the search term; the players,
    the prediction and the loading flag stay. Without an active slot it
    returns the state it was given. *)
Theorem selectPlayer_frame (s : State) (player : Player) :
  (forall a, activeSlot s = Some a ->
     let s' := selectPlayer player s in
     (exists side',
        obj_get (team a) (lineups s') = Some side'
        /\ obj_get (pos a) side' = Some player
        /\ (forall side, obj_get (team a) (lineups s) = Some side ->
              forall q, q <> pos a -> obj_get q side' = obj_get q side)
        /\ (obj_get (team a) (lineups s) = None ->
              forall q, q <> pos a -> obj_get q side' = None))
     /\ (forall t, t <> team a ->
           obj_get t (lineups s') = obj_get t (lineups s))
     /\ activeSlot s' = None
     /\ searchTerm s' = ""
     /\ playersDb s' = playersDb s
     /\ prediction s' = prediction s
     /\ loading s' = loading s)
  /\ (activeSlot s = None -> selectPlayer player s = s).
Proof.
  split.
  - intros a Ha. unfold selectPlayer. rewrite Ha. simpl.
    repeat split.
    + eexists. split; [apply obj_get_set_same|].
      split; [apply obj_get_set_same|]. split.
      * intros side Hside q Hq. rewrite Hside. simpl.
        now apply obj_get_set_other.
      * intros Hnone q Hq. rewrite Hnone. simpl.
        apply String.eqb_neq in Hq. now rewrite Hq.
    + intros t Ht. now apply obj_get_set_other.
  - intros Ha. unfold selectPlayer. now rewrite Ha.
Qed.


(** ** Filling a side with defaults *)

Lemma strict_eq_index v names i :
  strict_eq v (index_str names i) = true <-> v = index_str names i.
Proof.
  unfold index_str. destruct (nth_error names i) as [n|].
  - destruct v; simpl; try (split; [discriminate|intros H; discriminate H]).
    rewrite String.eqb_eq. split; [intros ->; reflexivity|intros H; now inversion H].
  - destruct v; simpl; split; try reflexivity; try discriminate.
Qed.

Lemma find_first {A : Type} (f : A -> bool) (l : list A) (x : A) :
  find f l = Some x ->
  exists before after,
    l = before ++ x :: after /\ f x = true
    /\ forall y, In y before -> f y = false.
Proof.
  induction l as [|a l IH]; simpl; [discriminate|].
  destruct (f a) eqn:E; intros H.
  - inversion H; subst. exists [], l. simpl. tauto.
  - destruct (IH H) as (before & after & -> & Hx & Hb).
    exists (a :: before), after. simpl. repeat split; auto.
    intros y [<-|Hy]; auto.
Qed.

Lemma filled_entry_keys db names es k :
  In k (obj_keys (flat_map (filled_entry db names) es)) -> In k (map fst es).
Proof.
  induction es as [|e es IH]; simpl; [tauto|].
  unfold obj_keys in *. rewrite map_app, in_app_iff.
  intros [H|H]; [|right; now apply IH].
  unfold filled_entry in H. destruct (found db names e); simpl in H; tauto.
Qed.

(** Over distinct slots the loop only ever adds properties, in the order
    of the slots. *)
Lemma fill_fold db names es (acc : obj Player) :
  NoDup (map fst es) ->
  (forall k, In k (obj_keys acc) -> ~ In k (map fst es)) ->
  fold_left (fill_slot db names) es acc
  = acc ++ flat_map (filled_entry db names) es.
Proof.
  revert acc. induction es as [|e es IH]; intros acc Hnd Hdis.
  - simpl. now rewrite app_nil_r.
  - cbn [fold_left flat_map]. inversion Hnd as [|? ? Hn Hnd']; subst.
    assert (Hstep : fill_slot db names acc e = acc ++ filled_entry db names e).
    { unfold fill_slot, filled_entry, found.
      match goal with |- context [find ?f db] => destruct (find f db) end.
      - apply obj_keys_set_new. intros Hin. apply (Hdis _ Hin). now left.
      - now rewrite app_nil_r. }
    rewrite Hstep, IH, <- app_assoc; [reflexivity | exact Hnd' |].
    intros k Hk Hin. unfold obj_keys in Hk. rewrite map_app, in_app_iff in Hk.
    destruct Hk as [Hk|Hk].
    + apply (Hdis _ Hk). now right.
    + unfold filled_entry in Hk. destruct (found db names e); simpl in Hk;
        [|tauto]. destruct Hk as [<-|[]]. contradiction.
Qed.

Lemma obj_get_app {A : Type} k (o1 o2 : obj A) :
  obj_get k (o1 ++ o2)
  = match obj_get k o1 with Some v => Some v | None => obj_get k o2 end.
Proof.
  induction o1 as [|[k' v'] o1 IH]; simpl; [reflexivity|].
  destruct (String.eqb k k'); auto.
Qed.

Lemma filled_get db names es e :
  NoDup (map fst es) -> In e es ->
  obj_get (fst e) (flat_map (filled_entry db names) es) = found db names e.
Proof.
  induction es as [|e0 es IH]; intros Hnd Hin; [destruct Hin|].
  inversion Hnd as [|? ? Hn Hnd']; subst.
  cbn [flat_map]. rewrite obj_get_app. destruct Hin as [->|Hin].
  - unfold filled_entry at 1. destruct (found db names e) eqn:E; simpl.
    + now rewrite String.eqb_refl.
    + apply obj_get_none. intros Hk. apply filled_entry_keys in Hk. contradiction.
  - assert (Hne : fst e <> fst e0).
    { intros Heq. apply Hn. rewrite <- Heq. now apply in_map. }
    unfold filled_entry at 1. destruct (found db names e0); simpl.
    + apply String.eqb_neq in Hne. rewrite Hne. now apply IH.
    + now apply IH.
Qed.

Lemma filled_length db names es :
  List.length (flat_map (filled_entry db names) es) <= List.length es.
Proof.
  induction es as [|e es IH]; simpl; [lia|].
  rewrite length_app. unfold filled_entry at 1.
  destruct (found db names e); simpl; lia.
Qed.

Lemma filled_length_missing db names es e :
  In e es -> found db names e = None ->
  List.length (flat_map (filled_entry db names) es) < List.length es.
Proof.
  induction es as [|e0 es IH]; intros Hin Hnone; [destruct Hin|].
  simpl. rewrite length_app. destruct Hin as [->|Hin].
  - unfold filled_entry at 1. rewrite Hnone. simpl.
    pose proof (filled_length db names es). lia.
  - specialize (IH Hin Hnone). unfold filled_entry at 1.
    destruct (found db names e0); simpl; lia.
Qed.

Lemma formation_entry i slot :
  nth_error FORMATION_ORDER i = Some slot ->
  In (slot, i) (entries FORMATION_ORDER).
Proof.
  intros H.
  do 11 (destruct i as [|i]; [inversion H; subst; simpl; tauto|]).
  destruct i; discriminate.
Qed.

Lemma formation_entries_nodup : NoDup (map fst (entries FORMATION_ORDER)).
Proof. exact roles_nodup. Qed.

(** The side [fillTeamWithDefaults] builds. *)
Lemma filledTeam_eq db names :
  fold_left (fill_slot db names) (entries FORMATION_ORDER) []
  = flat_map (filled_entry db names) (entries FORMATION_ORDER).
Proof.
  rewrite fill_fold; [reflexivity | exact formation_entries_nodup |].
  intros k [].
Qed.

(** C9. [fillTeamWithDefaults] replaces the side [teamKey] by one in which
    the slot [FORMATION_ORDER[i]] holds the first entry of the database
    whose name equals [defaultNames[i]]; when no entry has that name the
    slot is unfilled, and the side then has fewer than eleven players. No
    slot outside [FORMATION_ORDER] is filled, every other side keeps its
    lineup, and the rest of the state is as before. *)
Theorem fillTeamWithDefaults_spec (teamKey : string)
  (defaultNames : list string) (s : State) :
  let s' := fillTeamWithDefaults teamKey defaultNames s in
  exists filledTeam,
    obj_get teamKey (lineups s') = Some filledTeam
    /\ (forall i slot,
          nth_error FORMATION_ORDER i = Some slot ->
          match obj_get slot filledTeam with
          | Some p =>
              Spec.first_with_name (playersDb s) (index_str defaultNames i) p
          | None =>
              (forall q, In q (playersDb s) ->
                         ~ Spec.has_name q (index_str defaultNames i))
              /\ List.length (obj_values filledTeam) < 11
          end)
    /\ (forall k, In k (obj_keys filledTeam) -> In k FORMATION_ORDER)
    /\ (forall t, t <> teamKey ->
          obj_get t (lineups s') = obj_get t (lineups s))
    /\ playersDb s' = playersDb s
    /\ activeSlot s' = activeSlot s
    /\ searchTerm s' = searchTerm s
    /\ prediction s' = prediction s
    /\ loading s' = loading s.
Proof.
  cbv zeta. unfold fillTeamWithDefaults. cbn [lineups setLineups playersDb
    activeSlot searchTerm prediction loading].
  rewrite filledTeam_eq.
  exists (flat_map (filled_entry (playersDb s) defaultNames)
                   (entries FORMATION_ORDER)).
  split; [apply obj_get_set_same|].
  split; [|split; [|split; [|repeat split]]].
  - intros i slot Hi. apply formation_entry in Hi.
    pose proof (filled_get (playersDb s) defaultNames _ _
                  formation_entries_nodup Hi) as Hget.
    cbn [fst] in Hget. rewrite Hget.
    destruct (found (playersDb s) defaultNames (slot, i)) as [p|] eqn:E.
    + unfold found in E. cbn [snd] in E.
      apply find_first in E. destruct E as (before & after & Hdb & Hp & Hb).
      exists before, after. split; [exact Hdb|].
      split; [now apply strict_eq_index|].
      intros q Hq Hname. apply Hb in Hq.
      apply strict_eq_index in Hname. congruence.
    + split.
      * intros q Hq Hname. unfold found in E. cbn [snd] in E.
        apply (find_none _ _ E) in Hq.
        apply strict_eq_index in Hname. cbv beta in Hq. congruence.
      * rewrite obj_values_length. unfold obj_keys. rewrite length_map.
        change 11 with (List.length (entries FORMATION_ORDER)).
        eapply filled_length_missing; [exact Hi | exact E].
  - intros k Hk. apply filled_entry_keys in Hk. exact Hk.
  - intros t Ht. now apply obj_get_set_other.
Qed.


(** ** Running a prediction *)

Lemma selected_names_eq (side : obj Player) :
  map stringify_elem (map (fun p => prop p "name") (obj_values side))
  = Spec.selected_names side.
Proof. unfold Spec.selected_names. now rewrite map_map. Qed.

Lemma predict_request_eq (a b : obj Player) :
  predict_request (map (fun p => prop p "name") (obj_values a))
                  (map (fun p => prop p "name") (obj_values b))
  = Spec.prediction_request a b.
Proof.
  unfold predict_request, predict_body, Spec.prediction_request.
  now rewrite !selected_names_eq.
Qed.

(** The two ways [handlePredict] ends when both sides exist. *)
Lemma handlePredict_cases reply s (a b : obj Player) :
  obj_get "teamA" (lineups s) = Some a ->
  obj_get "teamB" (lineups s) = Some b ->
  handlePredict reply s
  = if (List.length (obj_values a) <? 11) || (List.length (obj_values b) <? 11)
    then Ok (s, [Alert "Both teams must have 11 players selected!"])
    else match reply with
         | Response _ (Some doc) =>
             Ok (setLoading false (setPrediction doc (setLoading true s)),
                 [Fetch (Spec.prediction_request a b)])
         | _ =>
             Ok (setLoading false (setLoading true s),
                 [Fetch (Spec.prediction_request a b);
                  Alert "Failed to reach prediction engine."])
         end.
Proof.
  intros Ha Hb. unfold handlePredict. rewrite Ha, Hb.
  cbn [Object_values bind]. rewrite !length_map, predict_request_eq.
  reflexivity.
Qed.



(** ** The names a request carries *)

Lemma filterM_in {A : Type} (f : A -> result bool) l r x :
  filterM f l = Ok r -> In x r -> In x l /\ f x = Ok true.
Proof.
  revert r. induction l as [|a l IH]; simpl; intros r H Hin.
  - inversion H; subst. destruct Hin.
  - destruct (f a) as [c|] eqn:Ea; simpl in H; [|discriminate].
    destruct (filterM f l) as [r'|] eqn:El; simpl in H; [|discriminate].
    inversion H; subst. destruct c.
    + destruct Hin as [<-|Hin]; [auto|].
      destruct (IH _ eq_refl Hin); auto.
    + destruct (IH _ eq_refl Hin); auto.
Qed.

(** A player that passes the search filter has a string for a name. *)
Lemma matches_search_named term p :
  matches_search term p = Ok true -> exists n, prop p "name" = VStr n.
Proof.
  unfold matches_search, toLowerCase_of.
  destruct (prop p "name"); simpl; try discriminate. eauto.
Qed.

Lemma obj_set_in {A : Type} k (v : A) o k' v' :
  In (k', v') (obj_set k v o) -> (k', v') = (k, v) \/ In (k', v') o.
Proof.
  induction o as [|[k0 v0] o IH]; simpl.
  - intros [H|[]]; auto.
  - destruct (String.eqb k k0) eqn:E; simpl.
    + apply String.eqb_eq in E. subst k0.
      intros [H|H]; auto.
    + intros [H|H]; auto. destruct (IH H); auto.
Qed.

Lemma obj_get_in {A : Type} k (v : A) o : obj_get k o = Some v -> In (k, v) o.
Proof.
  induction o as [|[k0 v0] o IH]; simpl; [discriminate|].
  destruct (String.eqb k k0) eqn:E; intros H.
  - apply String.eqb_eq in E. inversion H; subst. now left.
  - right. now apply IH.
Qed.

Lemma named_side_set side k p :
  Spec.named_side side -> (exists n, prop p "name" = VStr n) ->
  Spec.named_side (obj_set k p side).
Proof.
  intros Hs Hp k' p' Hin. apply obj_set_in in Hin.
  destruct Hin as [Heq|Hin]; [inversion Heq; subst; exact Hp | eauto].
Qed.

Lemma lineups_named_set s t side :
  Spec.lineups_named s -> Spec.named_side side ->
  Spec.lineups_named (setLineups (fun prev => obj_set t side prev) s).
Proof.
  intros Hs Hside t' side' Hget. cbn [lineups setLineups] in Hget.
  destruct (String.eqb t' t) eqn:E.
  - apply String.eqb_eq in E. subst t'.
    rewrite obj_get_set_same in Hget. inversion Hget; subst. exact Hside.
  - apply String.eqb_neq in E. rewrite obj_get_set_other in Hget by exact E.
    eauto.
Qed.

Lemma entries_index {A : Type} (l : list A) e :
  In e (entries l) -> snd e < List.length l.
Proof.
  destruct e as [x i]. unfold entries. intros H.
  apply in_combine_r in H. apply in_seq in H. simpl. lia.
Qed.

(** With a default name for every slot, every player the loop finds is
    found by a string. *)
Lemma filled_named db names :
  List.length FORMATION_ORDER <= List.length names ->
  Spec.named_side (flat_map (filled_entry db names) (entries FORMATION_ORDER)).
Proof.
  intros Hlen k p Hin. apply in_flat_map in Hin.
  destruct Hin as (e & He & Hin). unfold filled_entry in Hin.
  destruct (found db names e) as [q|] eqn:E; [|destruct Hin].
  destruct Hin as [Heq|[]]. inversion Heq; subst.
  unfold found in E. apply find_some in E. destruct E as [_ E].
  apply strict_eq_index in E. rewrite E. unfold index_str.
  apply entries_index in He.
  destruct (nth_error names (snd e)) as [n|] eqn:En; [eauto|].
  apply nth_error_None in En. lia.
Qed.

Lemma fillTeamWithDefaults_named teamKey names s :
  List.length FORMATION_ORDER <= List.length names ->
  Spec.lineups_named s ->
  Spec.lineups_named (fillTeamWithDefaults teamKey names s).
Proof.
  intros Hlen Hs. unfold fillTeamWithDefaults.
  apply lineups_named_set; [exact Hs|].
  rewrite filledTeam_eq. now apply filled_named.
Qed.

Lemma selectPlayer_named player s :
  (exists n, prop player "name" = VStr n) ->
  Spec.lineups_named s -> Spec.lineups_named (selectPlayer player s).
Proof.
  intros Hp Hs. unfold selectPlayer. destruct (activeSlot s) as [a|]; [|exact Hs].
  apply (lineups_named_set s (team a)); [exact Hs|].
  apply named_side_set; [|exact Hp].
  destruct (obj_get (team a) (lineups s)) as [side|] eqn:E; simpl.
  - eapply Hs; eauto.
  - intros k p [].
Qed.

Lemma reachable_named s : reachable s -> Spec.lineups_named s.
Proof.
  induction 1 as [|s s' _ IH Hstep].
  - intros t side Hget. simpl in Hget.
    destruct (String.eqb t "teamA"); [inversion Hget; subst; intros k p []|].
    destruct (String.eqb t "teamB"); [inversion Hget; subst; intros k p []|].
    discriminate.
  - destruct Hstep as
      [s reply | s teamId p Ht Hp | s | s term | s filtered player Hf Hin
       | s | s | s reply s' effects Hp]; try exact IH.
    + destruct reply; exact IH.
    + apply selectPlayer_named; [|exact IH].
      destruct (filterM_in _ _ _ _ Hf Hin) as [_ Hm].
      eapply matches_search_named; eauto.
    + apply fillTeamWithDefaults_named; [simpl; lia | exact IH].
    + apply fillTeamWithDefaults_named; [simpl; lia | exact IH].
    + apply handlePredict_keeps in Hp. destruct Hp as (_ & Hl & _).
      unfold Spec.lineups_named. rewrite Hl. exact IH.
Qed.

Lemma selected_names_strings side v :
  Spec.named_side side -> In v (Spec.selected_names side) ->
  exists n, v = VStr n.
Proof.
  intros Hs Hin. unfold Spec.selected_names, obj_values in Hin.
  rewrite map_map in Hin. apply in_map_iff in Hin.
  destruct Hin as ([k p] & <- & Hin). simpl.
  destruct (Hs k p Hin) as [n ->]. simpl. eauto.
Qed.

(** A side that is well formed and holds eleven players fills every role. *)
Lemma full_side_roles (side : obj Player) :
  Spec.lineup_ok side -> 11 <= List.length (obj_values side) ->
  List.length (obj_values side) = 11
  /\ forall k, In k Spec.ROLES <-> In k (obj_keys side).
Proof.
  intros (Hin & Hnd & Hle) Hge. split; [lia|].
  intros k. split; [|apply Hin].
  apply (NoDup_length_incl Hnd); [|exact Hin].
  rewrite <- obj_values_length. simpl. lia.
Qed.

(** C2, as the code has it. A request for a prediction sent from a state
    the application reaches carries, for each side, eleven names: the side
    fills each of the eleven roles exactly once, and the list holds, slot
    by slot, the name of the player in the slot, a string. Nothing makes the
    names differ from each other. *)
Theorem request_names_by_slot (reply : Reply) (s s' : State)
  (effects : list Effect) (req : Request) :
  reachable s ->
  handlePredict reply s = Ok (s', effects) ->
  In req (requests effects) ->
  exists a b,
    lineups s = [ ("teamA", a); ("teamB", b) ]
    /\ req = Spec.prediction_request a b
    /\ NoDup (obj_keys a) /\ NoDup (obj_keys b)
    /\ (forall k, In k Spec.ROLES <-> In k (obj_keys a))
    /\ (forall k, In k Spec.ROLES <-> In k (obj_keys b))
    /\ List.length (Spec.selected_names a) = 11
    /\ List.length (Spec.selected_names b) = 11
    /\ (forall v, In v (Spec.selected_names a ++ Spec.selected_names b) ->
                  exists n, v = VStr n).
Proof.
  intros Hr Hp Hin.
  destruct (reachable_invariant s Hr) as [(a & b & Hl & Ha & Hb) _].
  pose proof (reachable_named s Hr) as Hn.
  assert (Hga : obj_get "teamA" (lineups s) = Some a) by now rewrite Hl.
  assert (Hgb : obj_get "teamB" (lineups s) = Some b) by now rewrite Hl.
  rewrite (handlePredict_cases reply s a b Hga Hgb) in Hp.
  destruct (List.length (obj_values a) <? 11) eqn:Ea;
    [inversion Hp; subst; destruct Hin|].
  destruct (List.length (obj_values b) <? 11) eqn:Eb;
    [inversion Hp; subst; destruct Hin|].
  apply Nat.ltb_ge in Ea, Eb. cbn [orb] in Hp.
  destruct (full_side_roles a Ha Ea) as [La Ra].
  destruct (full_side_roles b Hb Eb) as [Lb Rb].
  assert (Hreq : req = Spec.prediction_request a b).
  { destruct reply as [|status [doc|]]; inversion Hp; subst;
      cbn [requests] in Hin; destruct Hin as [<-|[]]; reflexivity. }
  exists a, b. unfold Spec.selected_names at 1 2. rewrite !length_map.
  destruct Ha as (_ & Hnda & _). destruct Hb as (_ & Hndb & _).
  repeat split; auto; try apply Ra; try apply Rb.
  intros v Hv. apply in_app_iff in Hv.
  destruct Hv as [Hv|Hv].
  - apply (selected_names_strings a); [eapply Hn; exact Hga | exact Hv].
  - apply (selected_names_strings b); [eapply Hn; exact Hgb | exact Hv].
Qed.


(** ** The session *)

Lemma both_filled_reachable : reachable Scenario.both_filled.
Proof.
  apply (reach_step Scenario.home_filled); [|apply step_fill_away].
  apply (reach_step Scenario.loaded); [|apply step_fill_home].
  apply (reach_step initial); [apply reach_initial|].
  apply (step_load initial (PlayersData Scenario.catalog)).
Qed.

Lemma keeper_picked_reachable : reachable Scenario.keeper_picked.
Proof.
  assert (Hcat : In Scenario.alisson Scenario.catalog) by (simpl; tauto).
  apply (reach_step Scenario.keeper_open).
  2:{ apply (step_select _ Scenario.catalog); [vm_compute; reflexivity | exact Hcat]. }
  apply (reach_step Scenario.striker_picked).
  2:{ apply step_open; simpl; tauto. }
  apply (reach_step Scenario.striker_open).
  2:{ apply (step_select _ Scenario.catalog); [vm_compute; reflexivity | exact Hcat]. }
  apply (reach_step Scenario.both_filled).
  2:{ apply step_open; simpl; tauto. }
  exact both_filled_reachable.
Qed.

Lemma head_repeated {A : Type} (x : A) (l : list A) :
  In x l -> ~ NoDup (x :: l).
Proof. intros Hin Hnd. inversion Hnd; contradiction. Qed.

(** C2, as it is stated, fails: after both sides were filled, the home
    goalkeeper is picked for the home striker slot and for the away
    goalkeeper slot, and the request that follows names him three times. *)
Lemma duplicate_names_sent :
  reachable Scenario.keeper_picked
  /\ handlePredict (Response 422 (Some Scenario.error_object))
                   Scenario.keeper_picked
     = Ok (Scenario.answered, [ Fetch Scenario.duplicate_request ])
  /\ body Scenario.duplicate_request
     = VObj [ ("team_a_players", VArr Scenario.home_names);
              ("team_b_players", VArr Scenario.away_names) ]
  /\ ~ NoDup (Scenario.home_names ++ Scenario.away_names).
Proof.
  split; [exact keeper_picked_reachable|]. split; [|split].
  - vm_compute. reflexivity.
  - reflexivity.
  - apply head_repeated. simpl. tauto.
Qed.

(** ** The answer of the server *)

Lemma handlePredict_sides reply s s' effects :
  handlePredict reply s = Ok (s', effects) ->
  exists a b,
    obj_get "teamA" (lineups s) = Some a /\ obj_get "teamB" (lineups s) = Some b.
Proof.
  unfold handlePredict.
  destruct (obj_get "teamA" (lineups s)) as [a|]; [|discriminate].
  destruct (obj_get "teamB" (lineups s)) as [b|]; [|discriminate].
  eauto.
Qed.

(** C3, as it is stated, fails: an error object that arrives with the
    status 422, or with the status 503, is stored as the prediction, the
    result panel is shown for it, and no error is reported. *)
Lemma error_object_stored :
  reachable Scenario.both_filled
  /\ exists s' effects,
       handlePredict (Response 422 (Some Scenario.error_object))
                     Scenario.both_filled = Ok (s', effects)
       /\ handlePredict (Response 503 (Some Scenario.error_object))
                        Scenario.both_filled = Ok (s', effects)
       /\ prediction s' = Scenario.error_object
       /\ alerts effects = []
       /\ renderPrediction s' = Some (VUndefined, VUndefined).
Proof.
  split; [exact both_filled_reachable|].
  eexists. eexists. split; [vm_compute; reflexivity|].
  repeat split.
Qed.

(** C3, as the code has it. [handlePredict] either sends nothing and
    returns the state it was given, or sends one request; then the body of
    any response that parses as JSON becomes the prediction, whatever the
    status of the response, and nothing is reported; when no response
    arrives or its body does not parse, the prediction stays and the one
    alert "Failed to reach prediction engine." is raised. The loading
    flag is off at the end. *)
Theorem prediction_from_parsed_body (reply : Reply) (s s' : State)
  (effects : list Effect) :
  handlePredict reply s = Ok (s', effects) ->
  (requests effects = [] /\ s' = s)
  \/ (exists req,
        requests effects = [req]
        /\ loading s' = false
        /\ match reply with
           | Response _ (Some doc) =>
               prediction s' = doc /\ alerts effects = []
           | _ =>
               prediction s' = prediction s
               /\ alerts effects = [ "Failed to reach prediction engine." ]
           end).
Proof.
  intros Hp. destruct (handlePredict_sides _ _ _ _ Hp) as (a & b & Ha & Hb).
  rewrite (handlePredict_cases reply s a b Ha Hb) in Hp.
  destruct (_ || _).
  - left. inversion Hp; subst. auto.
  - right. exists (Spec.prediction_request a b).
    destruct reply as [|status [doc|]]; inversion Hp; subst; auto.
Qed.

(** ** The rows of the modal *)

Lemma mapM_rows (l : list Player) (rows : list Row) :
  mapM renderRow l = Ok rows ->
  Forall2 (fun p row => renderRow p = Ok row) l rows.
Proof.
  revert rows. induction l as [|p l IH]; simpl; intros rows H.
  - inversion H; subst. constructor.
  - destruct (renderRow p) as [row|] eqn:E; simpl in H; [|discriminate].
    destruct (mapM renderRow l) as [rest|]; simpl in H; [|discriminate].
    inversion H; subst. constructor; auto.
Qed.

Lemma renderRow_fields (p : Player) (row : Row) :
  renderRow p = Ok row ->
  row_name row = prop p "name" /\ row_team row = prop p "team"
  /\ row_badge row = prop p "pos" /\ row_age row = prop p "age"
  /\ getLogoUrl (prop p "team") = Ok (row_logo row).
Proof.
  unfold renderRow. destruct (getLogoUrl (prop p "team")) as [logo|]; simpl;
    [|discriminate].
  intros H; inversion H; subst; simpl. auto.
Qed.

(** C6, as it is stated, fails: for a record that holds its position under
    the key [position], the badge of its row shows nothing. *)
Lemma badge_ignores_position :
  prop Scenario.positioned "position" = VStr "GK"
  /\ exists row,
       renderModal (Scenario.modal_open Scenario.positioned)
       = Ok (Some ("GK", [row]))
       /\ row = Scenario.positioned_row
       /\ row_badge row = VUndefined
       /\ row_badge row <> prop Scenario.positioned "position".
Proof.
  split; [reflexivity|]. eexists. split; [vm_compute; reflexivity|].
  split; [reflexivity|]. split; [reflexivity | discriminate].
Qed.

(** C6, as the code has it. The rows of the modal are those of the
    filtered players, in their order, and a row reads four fields of its
    record: [name], [team], [pos] and [age]; the position badge shows the
    field [pos], and two records that agree on the four fields have the
    same row. *)
Theorem modal_rows_fields (s : State) (slot : string) (rows : list Row) :
  renderModal s = Ok (Some (slot, rows)) ->
  exists filtered,
    filteredPlayers s = Ok filtered
    /\ Forall2 (fun p row =>
                  row_name row = prop p "name"
                  /\ row_team row = prop p "team"
                  /\ row_badge row = prop p "pos"
                  /\ row_age row = prop p "age"
                  /\ getLogoUrl (prop p "team") = Ok (row_logo row)
                  /\ forall q : Player,
                       (forall k, In k ["name"; "team"; "pos"; "age"] ->
                                  prop q k = prop p k) ->
                       renderRow q = Ok row)
               filtered rows.
Proof.
  unfold renderModal. destruct (filteredPlayers s) as [filtered|]; simpl;
    [|discriminate].
  destruct (activeSlot s) as [a|]; [|discriminate].
  destruct (mapM renderRow filtered) as [rows'|] eqn:E; simpl; [|discriminate].
  intros H; inversion H; subst. exists filtered. split; [reflexivity|].
  apply mapM_rows in E. induction E as [|p row l rs Hp _ IH]; constructor; auto.
  destruct (renderRow_fields p row Hp) as (H1 & H2 & H3 & H4 & H5).
  repeat split; auto.
  intros q Hq. rewrite <- Hp. unfold renderRow.
  rewrite !Hq by (simpl; tauto). reflexivity.
Qed.

(** ** Strings *)

Module JsStringFacts.
Import JsString.

Lemma prefix_app (a b : string) :
  String.prefix a b = true <-> exists rest, b = (a ++ rest)%string.
Proof.
  revert b. induction a as [|c a IH]; intros b; simpl.
  - split; [intros _; now exists b | intros _; destruct b; reflexivity].
  - destruct b as [|d b].
    + split; [discriminate | intros [rest H]; discriminate H].
    + simpl. destruct (Ascii.ascii_dec c d) as [->|Hne].
      * rewrite IH. split; intros [rest H]; exists rest.
        -- now rewrite H.
        -- now inversion H.
      * split; [discriminate | intros [rest H]; inversion H; subst; now elim Hne].
Qed.

(** [includes] finds exactly the strings that occur. *)
Lemma includes_occurs (s sub : string) :
  includes s sub = true
  <-> exists before after, s = (before ++ sub ++ after)%string.
Proof.
  induction s as [|c s IH].
  - cbn [includes]. destruct (String.prefix sub "") eqn:E.
    + apply prefix_app in E. destruct E as [rest E].
      split; [intros _; now exists EmptyString, rest | reflexivity].
    + split; [discriminate|]. intros (before & after & H).
      destruct before; [|discriminate H]. simpl in H.
      assert (String.prefix sub "" = true) by (apply prefix_app; eauto).
      congruence.
  - cbn [includes]. destruct (String.prefix sub (String c s)) eqn:E.
    + apply prefix_app in E. destruct E as [rest E].
      split; [intros _; now exists EmptyString, rest | reflexivity].
    + rewrite IH. split.
      * intros (before & after & ->). now exists (String c before), after.
      * intros (before & after & H). destruct before as [|d before].
        -- simpl in H.
           assert (String.prefix sub (String c s) = true)
             by (apply prefix_app; eauto).
           congruence.
        -- inversion H; subst. eauto.
Qed.

Lemma includes_empty (s : string) : includes s "" = true.
Proof. destruct s; reflexivity. Qed.

(** The test of the filter, whatever [toLowerCase] does to its argument. *)
Lemma includes_lowered (hay needle : string) :
  includes (toLowerCase hay) (toLowerCase needle) = true
  <-> Spec.found_lowered hay needle.
Proof. apply includes_occurs. Qed.

Lemma skip_spaces_length (s : string) :
  String.length (skip_spaces s) <= String.length s.
Proof.
  induction s as [|c s IH]; simpl; [lia|].
  destruct (is_space c); simpl; lia.
Qed.

Lemma replace_spaces_unit c s by_ :
  is_space c = false ->
  replace_spaces (String c s) by_ = String c (replace_spaces s by_).
Proof. intros H. simp replace_spaces. rewrite H. reflexivity. Qed.

Lemma replace_spaces_run c s by_ :
  is_space c = true ->
  replace_spaces (String c s) by_
  = (by_ ++ replace_spaces (skip_spaces s) by_)%string.
Proof. intros H. simp replace_spaces. rewrite H. reflexivity. Qed.

(** A string is the run of whitespace at its start and what [skip_spaces]
    leaves, which starts with no whitespace. *)
Lemma skip_spaces_cut (s : string) :
  exists run,
    s = (run ++ skip_spaces s)%string
    /\ Spec.all_spaces run = true
    /\ Spec.starts_with_space (skip_spaces s) = false.
Proof.
  induction s as [|c s (run & Hs & Hr & Hn)]; [now exists EmptyString|].
  simpl. destruct (is_space c) eqn:E.
  - exists (String c run). simpl. rewrite E, Hr, <- Hs. auto.
  - exists EmptyString. simpl. auto.
Qed.

Lemma skip_spaces_run (run s : string) :
  Spec.all_spaces run = true -> Spec.starts_with_space s = false ->
  skip_spaces (run ++ s) = s.
Proof.
  intros Hr Hs. induction run as [|c run IH]; simpl in *.
  - destruct s as [|d s]; [reflexivity|]. simpl in Hs |- *. now rewrite Hs.
  - apply andb_true_iff in Hr. destruct Hr as [Hc Hr]. rewrite Hc. auto.
Qed.

(** The replacement writes one ["-"] for each maximal run of whitespace. *)
Lemma replace_spaces_dashed (s : string) : Spec.dashed s (replace_spaces s "-").
Proof.
  remember (String.length s) as n eqn:Hn. revert s Hn.
  induction n as [n IH] using lt_wf_ind. intros s Hn.
  destruct s as [|c s]; [simp replace_spaces; constructor|].
  simpl in Hn. destruct (is_space c) eqn:E.
  - rewrite replace_spaces_run by exact E.
    destruct (skip_spaces_cut s) as (run & Hs & Hr & Hnext).
    assert (Hlen : String.length (skip_spaces s) < n).
    { pose proof (skip_spaces_length s). lia. }
    replace (String c s) with (String c run ++ skip_spaces s)%string
      by (simpl; now rewrite <- Hs).
    apply Spec.dashed_run; [discriminate | simpl; now rewrite E, Hr | exact Hnext |].
    exact (IH _ Hlen _ eq_refl).
  - rewrite replace_spaces_unit by exact E.
    apply Spec.dashed_unit; [exact E|].
    apply (IH (String.length s)); [lia | reflexivity].
Qed.

(** and nothing else does. *)
Lemma dashed_replace_spaces (s t : string) :
  Spec.dashed s t -> t = replace_spaces s "-".
Proof.
  induction 1 as [|c s t Hc _ IH | run s t Hne Hr Hs _ IH].
  - now simp replace_spaces.
  - rewrite replace_spaces_unit by exact Hc. now rewrite IH.
  - destruct run as [|c run]; [contradiction|].
    simpl in Hr. apply andb_true_iff in Hr. destruct Hr as [Hc Hr].
    simpl. rewrite replace_spaces_run by exact Hc.
    rewrite skip_spaces_run by assumption. now rewrite IH.
Qed.

End JsStringFacts.


(** ** The search filter *)

Lemma matches_search_total term p :
  Spec.named p -> matches_search term p = Ok (search_verdict term p).
Proof.
  intros (n & t & Hn & Ht). unfold search_verdict, matches_search.
  rewrite Hn, Ht. simpl. destruct (JsString.includes _ _); reflexivity.
Qed.

Lemma search_verdict_matches term p :
  Spec.named p -> search_verdict term p = true <-> Spec.lower_matches term p.
Proof.
  intros (n & t & Hn & Ht). unfold search_verdict, matches_search, Spec.lower_matches.
  rewrite Hn, Ht. simpl.
  destruct (JsString.includes (JsString.toLowerCase n) _) eqn:En; simpl.
  - apply JsStringFacts.includes_lowered in En. split; [|reflexivity].
    intros _. left. eauto.
  - split.
    + intros Et. apply JsStringFacts.includes_lowered in Et. right. eauto.
    + intros [(n' & Heq & Hc)|(t' & Heq & Hc)]; inversion Heq; subst.
      * apply JsStringFacts.includes_lowered in Hc. congruence.
      * now apply JsStringFacts.includes_lowered.
Qed.

Lemma filterM_total {A : Type} (f : A -> result bool) (g : A -> bool) l :
  (forall x, In x l -> f x = Ok (g x)) -> filterM f l = Ok (filter g l).
Proof.
  induction l as [|a l IH]; intros H; simpl; [reflexivity|].
  rewrite (H a) by now left. simpl.
  rewrite IH by (intros; apply H; now right). simpl.
  destruct (g a); reflexivity.
Qed.

Lemma subseq_filter {A : Type} (g : A -> bool) (l : list A) :
  Spec.subseq (filter g l) l.
Proof.
  induction l as [|a l IH]; simpl; [constructor|].
  destruct (g a); now constructor.
Qed.

Lemma filter_all {A : Type} (g : A -> bool) (l : list A) :
  (forall x, In x l -> g x = true) -> filter g l = l.
Proof.
  induction l as [|a l IH]; intros H; simpl; [reflexivity|].
  rewrite (H a) by now left. f_equal. apply IH. intros; apply H; now right.
Qed.

(** C7, as it is stated, fails: lowering both sides is not ignoring the
    case. The name of the capitals alpha, sigma, alpha starts with the
    search term alpha, sigma; [toLowerCase] ends the lowered term with a
    final sigma and writes the sigma inside the lowered name as a plain
    one, so the player is not found. *)
Lemma final_sigma_not_found :
  Utf16.asa = Utf16.as_ ++ [ 0x391%N ]
  /\ Utf16.toLowerCase Utf16.asa = Some [ 0x3B1; 0x3C3; 0x3B1 ]%N
  /\ Utf16.toLowerCase Utf16.as_ = Some [ 0x3B1; 0x3C2 ]%N
  /\ Utf16.filteredPlayers Utf16.as_ [ (Utf16.asa, Utf16.club) ] = Some [].
Proof. repeat split. Qed.

(** C7, as the code has it. Over player records with a name and a team,
    [filteredPlayers] returns the players for which the name, lowered by
    [toLowerCase], or the team, lowered, holds the lowered search term as
    a stretch of it: they come in the order of the loaded list, a player is
    among them exactly when it is loaded and passes, the result is the
    loaded list filtered by any test that decides the passing, and for the
    empty search term it is the loaded list. Nothing is used of
    [toLowerCase] but that it lowers the empty string to itself. *)
Theorem filteredPlayers_spec (s : State) :
  Forall Spec.named (playersDb s) ->
  exists r,
    filteredPlayers s = Ok r
    /\ Spec.subseq r (playersDb s)
    /\ (forall p, In p r <->
                  In p (playersDb s) /\ Spec.lower_matches (searchTerm s) p)
    /\ (forall f : Player -> bool,
          (forall p, In p (playersDb s) ->
                     (f p = true <-> Spec.lower_matches (searchTerm s) p)) ->
          r = filter f (playersDb s))
    /\ (searchTerm s = "" -> r = playersDb s).
Proof.
  intros Hall. rewrite Forall_forall in Hall.
  exists (filter (search_verdict (searchTerm s)) (playersDb s)).
  split; [|split; [|split; [|split]]].
  - apply filterM_total. intros p Hp. now apply matches_search_total, Hall.
  - apply subseq_filter.
  - intros p. rewrite filter_In. split; intros [Hin Hm]; split; auto;
      now apply (search_verdict_matches _ _ (Hall p Hin)).
  - intros f Hf. apply filter_ext_in. intros p Hp.
    specialize (Hf p Hp).
    pose proof (search_verdict_matches (searchTerm s) p (Hall p Hp)) as Hv.
    destruct (f p), (search_verdict (searchTerm s) p); try reflexivity.
    + apply Hv, Hf. reflexivity.
    + symmetry. apply Hf, Hv. reflexivity.
  - intros Hterm. apply filter_all. intros p Hp.
    destruct (Hall p Hp) as (n & t & Hn & Ht).
    unfold search_verdict, matches_search. rewrite Hn, Hterm. simpl.
    now rewrite JsStringFacts.includes_empty.
Qed.

(** ** The logo of a team *)

(** C10. [getLogoUrl] returns ["/logos/default.png"] for [null], for
    [undefined] and for the empty string; for a team name that is not
    empty it returns ["/logos/"], then the lowered name in which each
    maximal run of whitespace is replaced by one ["-"], then
    [".football-logos.cc.svg"]. *)
Theorem getLogoUrl_spec :
  getLogoUrl VNull = Ok "/logos/default.png"
  /\ getLogoUrl VUndefined = Ok "/logos/default.png"
  /\ getLogoUrl (VStr "") = Ok "/logos/default.png"
  /\ forall teamName : string,
       teamName <> "" ->
       exists fileName,
         getLogoUrl (VStr teamName)
         = Ok ("/logos/" ++ fileName ++ ".football-logos.cc.svg")%string
         /\ Spec.dashed (JsString.toLowerCase teamName) fileName
         /\ forall t, Spec.dashed (JsString.toLowerCase teamName) t ->
                      t = fileName.
Proof.
  repeat split.
  intros teamName Hne.
  exists (JsString.replace_spaces (JsString.toLowerCase teamName) "-").
  split; [|split].
  - unfold getLogoUrl. cbn [truthy].
    apply String.eqb_neq in Hne. rewrite Hne. reflexivity.
  - apply JsStringFacts.replace_spaces_dashed.
  - apply JsStringFacts.dashed_replace_spaces.
Qed.


(** ** The Statistic Blender *)

Section BlenderFacts.
Local Open Scope Q_scope.

Lemma blend_between (alpha rolling baseline : Q) :
  0 <= alpha <= 1 ->
  (rolling <= baseline ->
   rolling <= Blender.blend alpha rolling baseline <= baseline)
  /\ (baseline <= rolling ->
      baseline <= Blender.blend alpha rolling baseline <= rolling).
Proof.
  intros [H0 H1]. unfold Blender.blend. split; intros H; split; nra.
Qed.

(** C5. For a metric with observations and a coefficient [alpha] between
    0 and 1 the Blender returns
    [alpha * rolling_form + (1 - alpha) * season_baseline], a value between
    the two; with a season baseline of 0.40, a rolling form of 0.60 and
    [alpha] = 0.5 it is 0.50. *)
Theorem blended_spec (alpha : Q) (window : nat) (series : list Q) :
  0 <= alpha <= 1 ->
  series <> [] ->
  exists v,
    Blender.blended alpha window series = Some v
    /\ v == alpha * Blender.rolling_form window series
            + (1 - alpha) * Blender.season_baseline series
    /\ (Blender.rolling_form window series <= Blender.season_baseline series ->
        Blender.rolling_form window series <= v
        /\ v <= Blender.season_baseline series)
    /\ (Blender.season_baseline series <= Blender.rolling_form window series ->
        Blender.season_baseline series <= v
        /\ v <= Blender.rolling_form window series)
    /\ (alpha == 1 # 2 ->
        Blender.season_baseline series == 4 # 10 ->
        Blender.rolling_form window series == 6 # 10 ->
        v == 5 # 10).
Proof.
  intros Halpha Hne.
  exists (Blender.blend alpha (Blender.rolling_form window series)
                        (Blender.season_baseline series)).
  split; [destruct series; [contradiction | reflexivity]|].
  split; [unfold Blender.blend; reflexivity|].
  destruct (blend_between alpha (Blender.rolling_form window series)
              (Blender.season_baseline series) Halpha) as [Hlo Hhi].
  split; [exact Hlo|]. split; [exact Hhi|].
  intros Ha Hb Hr. unfold Blender.blend. rewrite Ha, Hb, Hr. reflexivity.
Qed.

End BlenderFacts.


(** ** Some runs *)

Example getLogoUrl_city :
  getLogoUrl (VStr "Manchester City")
  = Ok "/logos/manchester-city.football-logos.cc.svg".
Proof. reflexivity. Qed.

Example getLogoUrl_runs :
  getLogoUrl (VStr "  West   Ham United ")
  = Ok "/logos/-west-ham-united-.football-logos.cc.svg".
Proof. reflexivity. Qed.

(** A truthy team name that is no string has no [toLowerCase]. *)
Example getLogoUrl_number : getLogoUrl (VNum 5 0) = Throw TypeError.
Proof. reflexivity. Qed.

(** A search term in capitals finds a team spelled in small letters. *)
Example filteredPlayers_by_team :
  filteredPlayers Scenario.searching
  = Ok (map (fun n => Scenario.record n "Liverpool" "MF") TEAM_A_DEFAULT).
Proof. reflexivity. Qed.

(** The team of a record is read only when its name does not match: a
    record without a team passes the empty search term, and makes the
    callback throw for a term its name does not contain. *)
Example filteredPlayers_without_team :
  let p : Player := [ ("name", VStr "Ederson"); ("team", VNull) ] in
  let s := setPlayersDb [p] initial in
  filteredPlayers s = Ok [p]
  /\ filteredPlayers (setSearchTerm "eder" s) = Ok [p]
  /\ filteredPlayers (setSearchTerm "city" s) = Throw TypeError.
Proof. repeat split. Qed.

(** A fill over a catalog that lacks some default players leaves their
    slots empty. *)
Example fill_partial :
  lineups (fillTeamWithDefaults "teamA" TEAM_A_DEFAULT
             (setPlayersDb [ Scenario.alisson ] initial))
  = [ ("teamA", [ ("GK", Scenario.alisson) ]); ("teamB", []) ].
Proof. reflexivity. Qed.

(** ** The theorems at work on the session *)


Lemma request_names_by_slot_witness :
  reachable Scenario.keeper_picked
  /\ handlePredict (Response 422 (Some Scenario.error_object))
                   Scenario.keeper_picked
     = Ok (Scenario.answered, [ Fetch Scenario.duplicate_request ])
  /\ In Scenario.duplicate_request
        (requests [ Fetch Scenario.duplicate_request ])
  /\ exists a b,
       lineups Scenario.keeper_picked = [ ("teamA", a); ("teamB", b) ]
       /\ Scenario.duplicate_request = Spec.prediction_request a b
       /\ NoDup (obj_keys a) /\ NoDup (obj_keys b)
       /\ (forall k, In k Spec.ROLES <-> In k (obj_keys a))
       /\ (forall k, In k Spec.ROLES <-> In k (obj_keys b))
       /\ List.length (Spec.selected_names a) = 11
       /\ List.length (Spec.selected_names b) = 11
       /\ (forall v, In v (Spec.selected_names a ++ Spec.selected_names b) ->
                     exists n, v = VStr n).
Proof.
  assert (Hrun : handlePredict (Response 422 (Some Scenario.error_object))
                               Scenario.keeper_picked
                 = Ok (Scenario.answered, [ Fetch Scenario.duplicate_request ]))
    by (vm_compute; reflexivity).
  assert (Hin : In Scenario.duplicate_request
                   (requests [ Fetch Scenario.duplicate_request ]))
    by (simpl; tauto).
  split; [exact keeper_picked_reachable|]. split; [exact Hrun|].
  split; [exact Hin|].
  exact (request_names_by_slot _ _ _ _ _ keeper_picked_reachable Hrun Hin).
Defined.

Lemma prediction_from_parsed_body_witness :
  handlePredict (Response 422 (Some Scenario.error_object))
                Scenario.keeper_picked
  = Ok (Scenario.answered, [ Fetch Scenario.duplicate_request ])
  /\ ((requests [ Fetch Scenario.duplicate_request ] = []
       /\ Scenario.answered = Scenario.keeper_picked)
      \/ (exists req,
            requests [ Fetch Scenario.duplicate_request ] = [req]
            /\ loading Scenario.answered = false
            /\ prediction Scenario.answered = Scenario.error_object
            /\ alerts [ Fetch Scenario.duplicate_request ] = [])).
Proof.
  assert (Hrun : handlePredict (Response 422 (Some Scenario.error_object))
                               Scenario.keeper_picked
                 = Ok (Scenario.answered, [ Fetch Scenario.duplicate_request ]))
    by (vm_compute; reflexivity).
  split; [exact Hrun|].
  exact (prediction_from_parsed_body _ _ _ _ Hrun).
Defined.

Lemma lineup_slots_invariant_witness :
  reachable Scenario.keeper_picked
  /\ Spec.slots_ok Scenario.keeper_picked
  /\ (forall player, Spec.slots_ok (selectPlayer player Scenario.keeper_picked))
  /\ (forall teamKey defaultNames,
        In teamKey TEAM_IDS ->
        Spec.slots_ok
          (fillTeamWithDefaults teamKey defaultNames Scenario.keeper_picked)).
Proof.
  split; [exact keeper_picked_reachable|].
  exact (lineup_slots_invariant Scenario.keeper_picked keeper_picked_reachable).
Defined.

Lemma blended_spec_witness :
  (0 <= 1 # 2 <= 1)%Q
  /\ Blender.sample_series <> []
  /\ (Blender.season_baseline Blender.sample_series == 4 # 10)%Q
  /\ (Blender.rolling_form 2 Blender.sample_series == 6 # 10)%Q
  /\ exists v,
       Blender.blended (1 # 2) 2 Blender.sample_series = Some v
       /\ (v == 5 # 10)%Q.
Proof.
  assert (Ha : (0 <= 1 # 2 <= 1)%Q) by (split; discriminate).
  assert (Hs : Blender.sample_series <> []) by discriminate.
  assert (Hb : (Blender.season_baseline Blender.sample_series == 4 # 10)%Q)
    by (vm_compute; reflexivity).
  assert (Hr : (Blender.rolling_form 2 Blender.sample_series == 6 # 10)%Q)
    by (vm_compute; reflexivity).
  split; [exact Ha|]. split; [exact Hs|]. split; [exact Hb|]. split; [exact Hr|].
  destruct (blended_spec (1 # 2) 2 Blender.sample_series Ha Hs)
    as (v & Hv & _ & _ & _ & Hex).
  exists v. split; [exact Hv|]. apply Hex; [reflexivity | exact Hb | exact Hr].
Defined.

Lemma modal_rows_fields_witness :
  renderModal (Scenario.modal_open Scenario.positioned)
  = Ok (Some ("GK", [ Scenario.positioned_row ]))
  /\ exists filtered,
       filteredPlayers (Scenario.modal_open Scenario.positioned) = Ok filtered
       /\ Forall2 (fun p row =>
                     row_name row = prop p "name"
                     /\ row_team row = prop p "team"
                     /\ row_badge row = prop p "pos"
                     /\ row_age row = prop p "age"
                     /\ getLogoUrl (prop p "team") = Ok (row_logo row)
                     /\ forall q : Player,
                          (forall k, In k ["name"; "team"; "pos"; "age"] ->
                                     prop q k = prop p k) ->
                          renderRow q = Ok row)
                  filtered [ Scenario.positioned_row ].
Proof.
  assert (Hm : renderModal (Scenario.modal_open Scenario.positioned)
               = Ok (Some ("GK", [ Scenario.positioned_row ])))
    by (vm_compute; reflexivity).
  split; [exact Hm|].
  exact (modal_rows_fields _ _ _ Hm).
Defined.

Lemma catalog_named : Forall Spec.named Scenario.catalog.
Proof.
  unfold Scenario.catalog. apply Forall_app. split; apply Forall_map;
    apply Forall_forall; intros n _; exists n; eexists; split; reflexivity.
Qed.

Lemma filteredPlayers_spec_witness :
  Forall Spec.named (playersDb Scenario.searching)
  /\ exists r,
       filteredPlayers Scenario.searching = Ok r
       /\ Spec.subseq r (playersDb Scenario.searching)
       /\ (forall p, In p r <->
                     In p (playersDb Scenario.searching)
                     /\ Spec.lower_matches (searchTerm Scenario.searching) p)
       /\ (forall f : Player -> bool,
             (forall p, In p (playersDb Scenario.searching) ->
                        (f p = true
                         <-> Spec.lower_matches (searchTerm Scenario.searching) p)) ->
             r = filter f (playersDb Scenario.searching))
       /\ (searchTerm Scenario.searching = "" ->
           r = playersDb Scenario.searching).
Proof.
  split; [exact catalog_named|].
  exact (filteredPlayers_spec Scenario.searching catalog_named).
Defined.

Lemma selectPlayer_frame_witness :
  activeSlot Scenario.striker_open = Some (mkActiveSlot "teamA" "ST")
  /\ obj_get "teamA" (lineups Scenario.striker_open) = Some Tour.home_eleven
  /\ (exists side',
        obj_get "teamA" (lineups Scenario.striker_picked) = Some side'
        /\ obj_get "ST" side' = Some Scenario.alisson
        /\ (forall q, q <> "ST" ->
              obj_get q side' = obj_get q Tour.home_eleven))
  /\ (forall t, t <> "teamA" ->
        obj_get t (lineups Scenario.striker_picked)
        = obj_get t (lineups Scenario.striker_open))
  /\ activeSlot Scenario.striker_picked = None
  /\ searchTerm Scenario.striker_picked = ""
  /\ playersDb Scenario.striker_picked = playersDb Scenario.striker_open
  /\ prediction Scenario.striker_picked = prediction Scenario.striker_open
  /\ loading Scenario.striker_picked = loading Scenario.striker_open.
Proof.
  assert (Hside : obj_get "teamA" (lineups Scenario.striker_open)
                  = Some Tour.home_eleven) by reflexivity.
  split; [reflexivity|]. split; [exact Hside|].
  destruct (proj1 (selectPlayer_frame Scenario.striker_open Scenario.alisson)
                  (mkActiveSlot "teamA" "ST") eq_refl)
    as ((side' & Hget & Hst & Hkeep & _) & Hrest).
  split; [|exact Hrest].
  exists side'. split; [exact Hget|]. split; [exact Hst|].
  exact (Hkeep Tour.home_eleven Hside).
Defined.

Lemma fillTeamWithDefaults_spec_witness :
  nth_error FORMATION_ORDER 0 = Some "GK"
  /\ exists filledTeam,
       obj_get "teamA" (lineups Scenario.home_filled) = Some filledTeam
       /\ obj_get "GK" filledTeam = Some Scenario.alisson
       /\ Spec.first_with_name (playersDb Scenario.loaded) (VStr "Alisson")
                               Scenario.alisson.
Proof.
  split; [reflexivity|].
  destruct (fillTeamWithDefaults_spec "teamA" TEAM_A_DEFAULT Scenario.loaded)
    as (filledTeam & Hget & Hslots & _).
  exists filledTeam. split; [exact Hget|].
  specialize (Hslots 0 "GK" eq_refl).
  assert (Hgk : obj_get "GK" filledTeam = Some Scenario.alisson).
  { vm_compute in Hget. inversion Hget; subst. reflexivity. }
  rewrite Hgk in Hslots. split; [exact Hgk | exact Hslots].
Defined.

Lemma getLogoUrl_spec_witness :
  "Manchester City" <> ""
  /\ exists fileName,
       getLogoUrl (VStr "Manchester City")
       = Ok ("/logos/" ++ fileName ++ ".football-logos.cc.svg")%string
       /\ Spec.dashed (JsString.toLowerCase "Manchester City") fileName
       /\ forall t, Spec.dashed (JsString.toLowerCase "Manchester City") t ->
                    t = fileName.
Proof.
  assert (Hne : "Manchester City" <> "") by discriminate.
  split; [exact Hne|].
  exact (proj2 (proj2 (proj2 getLogoUrl_spec)) "Manchester City" Hne).
Defined.

(* ===================================================================== *)
(** * Further properties of the handlers *)
(* ===================================================================== *)

(** ** Picking players *)

(** X1. A second call of [selectPlayer] that is not preceded by a click on
    a marker changes nothing: the first call has closed the modal. *)
Theorem selectPlayer_second_click (s : State) (first_ second_ : Player) :
  selectPlayer second_ (selectPlayer first_ s) = selectPlayer first_ s.
Proof.
  assert (H : activeSlot (selectPlayer first_ s) = None).
  { unfold selectPlayer. destruct (activeSlot s) eqn:E; [reflexivity | exact E]. }
  unfold selectPlayer at 1. now rewrite H.
Qed.

(** X2. [selectPlayer] keeps the order of the slots of a side, which is the
    order of the names in a request: a slot that is filled keeps its place
    and the side its size, a slot that is empty goes last. The sides keep
    their order too. *)
Theorem selectPlayer_slot_order (s : State) (a : ActiveSlot) (player : Player)
  (side : obj Player) :
  activeSlot s = Some a ->
  obj_get (team a) (lineups s) = Some side ->
  exists side',
    obj_get (team a) (lineups (selectPlayer player s)) = Some side'
    /\ (In (pos a) (obj_keys side) ->
        obj_keys side' = obj_keys side
        /\ List.length (obj_values side') = List.length (obj_values side))
    /\ (~ In (pos a) (obj_keys side) ->
        side' = side ++ [ (pos a, player) ])
    /\ obj_keys (lineups (selectPlayer player s)) = obj_keys (lineups s).
Proof.
  intros Ha Hside. unfold selectPlayer. rewrite Ha.
  cbn [lineups setLineups setActiveSlot setSearchTerm]. rewrite Hside.
  cbn [spread]. exists (obj_set (pos a) player side).
  split; [apply obj_get_set_same|]. split; [|split].
  - intros Hin. pose proof (obj_keys_set_old (pos a) player side Hin) as Hk.
    split; [exact Hk|]. now rewrite !obj_values_length, Hk.
  - apply obj_keys_set_new.
  - apply obj_keys_set_old. eapply obj_get_in_keys; eauto.
Qed.

(** ** Filling a side *)

Lemma obj_set_twice {A : Type} k (v w : A) (o : obj A) :
  obj_set k v (obj_set k w o) = obj_set k v o.
Proof.
  induction o as [|[k' v'] o IH]; simpl.
  - now rewrite String.eqb_refl.
  - destruct (String.eqb k k') eqn:E; simpl; rewrite E; [reflexivity|].
    now rewrite IH.
Qed.

(** X3. Pressing a fill button twice is pressing it once, and the side a
    fill button writes does not depend on what was picked before: the
    picks of that side are dropped. *)
Theorem fillTeamWithDefaults_overrides (teamKey : string)
  (defaultNames : list string) (s : State) (player : Player) :
  fillTeamWithDefaults teamKey defaultNames
    (fillTeamWithDefaults teamKey defaultNames s)
  = fillTeamWithDefaults teamKey defaultNames s
  /\ obj_get teamKey
       (lineups (fillTeamWithDefaults teamKey defaultNames
                   (selectPlayer player s)))
     = obj_get teamKey (lineups (fillTeamWithDefaults teamKey defaultNames s)).
Proof.
  split.
  - unfold fillTeamWithDefaults, setLineups.
    cbn [playersDb lineups activeSlot searchTerm prediction loading].
    now rewrite obj_set_twice.
  - assert (Hdb : playersDb (selectPlayer player s) = playersDb s).
    { unfold selectPlayer. destruct (activeSlot s); reflexivity. }
    unfold fillTeamWithDefaults. cbn [lineups setLineups].
    now rewrite !obj_get_set_same, Hdb.
Qed.

(** Where every entry finds its player, the loop fills every slot, in the
    order of the entries, with players that carry the names looked for. *)
Lemma filled_all db names es :
  (forall e, In e es -> exists p, found db names e = Some p) ->
  obj_keys (flat_map (filled_entry db names) es) = map fst es
  /\ map (fun p => prop p "name")
         (obj_values (flat_map (filled_entry db names) es))
     = map (fun e => index_str names (snd e)) es.
Proof.
  induction es as [|e es IH]; intros H; [split; reflexivity|].
  destruct IH as [IHk IHv]; [intros; apply H; now right|].
  destruct (H e (or_introl eq_refl)) as [p Hp].
  cbn [flat_map]. unfold filled_entry at 1 3. rewrite Hp.
  unfold obj_keys, obj_values in *. cbn [app map fst snd].
  rewrite IHk, IHv. split; [reflexivity|]. f_equal.
  unfold found in Hp. apply find_some in Hp. destruct Hp as [_ Hp].
  now apply strict_eq_index in Hp.
Qed.

Lemma found_some db names e n :
  index_str names (snd e) = VStr n ->
  (exists p, In p db /\ prop p "name" = VStr n) ->
  exists p, found db names e = Some p.
Proof.
  intros Hn (p & Hin & Hp). unfold found.
  match goal with |- context [find ?f db] => destruct (find f db) as [q|] eqn:E end;
    [eauto|].
  apply (find_none _ _ E) in Hin. cbv beta in Hin.
  rewrite Hn, Hp in Hin. simpl in Hin. now rewrite String.eqb_refl in Hin.
Qed.

(** The side built from eleven default names that are all in the catalog. *)
Lemma filled_complete db names :
  11 <= List.length names ->
  (forall n, In n (firstn 11 names) ->
             exists p, In p db /\ prop p "name" = VStr n) ->
  obj_keys (flat_map (filled_entry db names) (entries FORMATION_ORDER))
  = FORMATION_ORDER
  /\ Spec.selected_names
       (flat_map (filled_entry db names) (entries FORMATION_ORDER))
     = map VStr (firstn 11 names).
Proof.
  intros Hlen Hcat.
  do 11 (destruct names as [|? names]; [simpl in Hlen; lia|]).
  match type of Hlen with
  | _ <= List.length ?l =>
      destruct (filled_all db l (entries FORMATION_ORDER)) as [Hk Hv]
  end.
  { intros e He. unfold entries in He. cbn in He.
    repeat (destruct He as [<-|He];
            [eapply found_some; [reflexivity | apply Hcat; simpl; tauto]|]).
    destruct He. }
  split; [exact Hk|].
  unfold Spec.selected_names. rewrite <- map_map, Hv. reflexivity.
Qed.

(** X4. When the catalog holds a record for each of the first eleven
    default names, [fillTeamWithDefaults] fills the eleven slots in the
    order of [FORMATION_ORDER], and the names of the side, as a request
    would carry them, are those eleven default names in their order. *)
Theorem fillTeamWithDefaults_complete (teamKey : string)
  (defaultNames : list string) (s : State) :
  11 <= List.length defaultNames ->
  (forall n, In n (firstn 11 defaultNames) ->
             exists p, In p (playersDb s) /\ prop p "name" = VStr n) ->
  exists side,
    obj_get teamKey (lineups (fillTeamWithDefaults teamKey defaultNames s))
    = Some side
    /\ obj_keys side = FORMATION_ORDER
    /\ Spec.selected_names side = map VStr (firstn 11 defaultNames).
Proof.
  intros Hlen Hcat. unfold fillTeamWithDefaults. cbn [lineups setLineups].
  rewrite filledTeam_eq, obj_get_set_same. eexists. split; [reflexivity|].
  now apply filled_complete.
Qed.

(** X5. With a catalog that holds the twenty-two default players, pressing
    the two fill buttons, in either order, and then the predict button
    sends one request, whose two lists are the two default lists. *)
Theorem fills_then_predict (s : State) (reply : Reply) :
  (forall n, In n (TEAM_A_DEFAULT ++ TEAM_B_DEFAULT) ->
             exists p, In p (playersDb s) /\ prop p "name" = VStr n) ->
  forall filled,
    filled = fillTeamWithDefaults "teamB" TEAM_B_DEFAULT
               (fillTeamWithDefaults "teamA" TEAM_A_DEFAULT s)
    \/ filled = fillTeamWithDefaults "teamA" TEAM_A_DEFAULT
                  (fillTeamWithDefaults "teamB" TEAM_B_DEFAULT s) ->
    exists s' effects,
      handlePredict reply filled = Ok (s', effects)
      /\ requests effects
         = [ {| url := "http://localhost:8000/predict";
                method := "POST";
                headers := [ ("Content-Type", "application/json") ];
                body := VObj [ ("team_a_players",
                                VArr (map VStr TEAM_A_DEFAULT));
                               ("team_b_players",
                                VArr (map VStr TEAM_B_DEFAULT)) ] |} ].
Proof.
  intros Hcat filled Hfilled.
  destruct (filled_complete (playersDb s) TEAM_A_DEFAULT) as [Hka Hna];
    [simpl; lia | intros n Hn; apply Hcat, in_or_app; now left |].
  destruct (filled_complete (playersDb s) TEAM_B_DEFAULT) as [Hkb Hnb];
    [simpl; lia | intros n Hn; apply Hcat, in_or_app; now right |].
  set (a := flat_map (filled_entry (playersDb s) TEAM_A_DEFAULT)
                     (entries FORMATION_ORDER)) in *.
  set (b := flat_map (filled_entry (playersDb s) TEAM_B_DEFAULT)
                     (entries FORMATION_ORDER)) in *.
  assert (Hga : obj_get "teamA" (lineups filled) = Some a).
  { destruct Hfilled as [-> | ->]; unfold fillTeamWithDefaults;
      cbn [lineups setLineups playersDb]; rewrite !filledTeam_eq.
    - rewrite obj_get_set_other by discriminate. apply obj_get_set_same.
    - apply obj_get_set_same. }
  assert (Hgb : obj_get "teamB" (lineups filled) = Some b).
  { destruct Hfilled as [-> | ->]; unfold fillTeamWithDefaults;
      cbn [lineups setLineups playersDb]; rewrite !filledTeam_eq.
    - apply obj_get_set_same.
    - rewrite obj_get_set_other by discriminate. apply obj_get_set_same. }
  assert (La : List.length (obj_values a) = 11)
    by (rewrite obj_values_length, Hka; reflexivity).
  assert (Lb : List.length (obj_values b) = 11)
    by (rewrite obj_values_length, Hkb; reflexivity).
  pose proof (handlePredict_cases reply filled a b Hga Hgb) as Hrun.
  rewrite La, Lb in Hrun. cbn [Nat.ltb Nat.leb orb] in Hrun.
  assert (Hreq : Spec.prediction_request a b
                 = {| url := "http://localhost:8000/predict";
                      method := "POST";
                      headers := [ ("Content-Type", "application/json") ];
                      body := VObj [ ("team_a_players",
                                      VArr (map VStr TEAM_A_DEFAULT));
                                     ("team_b_players",
                                      VArr (map VStr TEAM_B_DEFAULT)) ] |}).
  { unfold Spec.prediction_request. rewrite Hna, Hnb. reflexivity. }
  rewrite Hreq in Hrun.
  destruct reply as [|status [doc|]]; eexists; eexists;
    (split; [exact Hrun | reflexivity]).
Qed.

(** ** Running a prediction from a state of the application *)

(** X6. [handlePredict] throws exactly when one of the two sides is missing
    from [lineups]; in a state the application reaches it never throws, and
    it leaves the players, the lineups, the active slot and the search term
    as they are. *)
Theorem handlePredict_returns (s : State) (reply : Reply) :
  (handlePredict reply s = Throw TypeError
   <-> obj_get "teamA" (lineups s) = None
       \/ obj_get "teamB" (lineups s) = None)
  /\ (reachable s ->
      exists s' effects,
        handlePredict reply s = Ok (s', effects)
        /\ playersDb s' = playersDb s
        /\ lineups s' = lineups s
        /\ activeSlot s' = activeSlot s
        /\ searchTerm s' = searchTerm s).
Proof.
  split.
  - destruct (obj_get "teamA" (lineups s)) as [a|] eqn:Ea.
    + destruct (obj_get "teamB" (lineups s)) as [b|] eqn:Eb.
      * rewrite (handlePredict_cases reply s a b Ea Eb).
        split; [|intros [H|H]; discriminate H].
        destruct (_ || _); [discriminate|].
        destruct reply as [|status [doc|]]; discriminate.
      * split; [auto|]. intros _. unfold handlePredict. now rewrite Ea, Eb.
    + split; [auto|]. intros _. unfold handlePredict. now rewrite Ea.
  - intros Hr. destruct (reachable_invariant s Hr) as [(a & b & Hl & _) _].
    assert (Ha : obj_get "teamA" (lineups s) = Some a) by now rewrite Hl.
    assert (Hb : obj_get "teamB" (lineups s) = Some b) by now rewrite Hl.
    pose proof (handlePredict_cases reply s a b Ha Hb) as Hrun.
    destruct (_ || _) in Hrun.
    + exists s. eexists. split; [exact Hrun|]. auto.
    + destruct reply as [|status [doc|]]; eexists; eexists;
        (split; [exact Hrun|]); auto.
Qed.

Lemma roles_filled_length (side : obj Player) :
  (forall k, In k Spec.ROLES -> In k (obj_keys side)) ->
  11 <= List.length (obj_values side).
Proof.
  intros H. rewrite obj_values_length.
  change 11 with (List.length Spec.ROLES).
  apply NoDup_incl_length; [exact roles_nodup | exact H].
Qed.

(** X7. From a state the application reaches, the predict button sends a
    request exactly when every one of the eleven roles is filled on both
    sides; otherwise it only raises the alert about the eleven players. *)
Theorem request_iff_all_roles (s s' : State) (reply : Reply)
  (effects : list Effect) :
  reachable s ->
  handlePredict reply s = Ok (s', effects) ->
  exists a b,
    lineups s = [ ("teamA", a); ("teamB", b) ]
    /\ (requests effects <> []
        <-> (forall k, In k Spec.ROLES ->
                       In k (obj_keys a) /\ In k (obj_keys b)))
    /\ (requests effects = [] ->
        s' = s
        /\ effects = [ Alert "Both teams must have 11 players selected!" ]).
Proof.
  intros Hr Hrun.
  destruct (reachable_invariant s Hr) as [(a & b & Hl & Hoka & Hokb) _].
  assert (Ha : obj_get "teamA" (lineups s) = Some a) by now rewrite Hl.
  assert (Hb : obj_get "teamB" (lineups s) = Some b) by now rewrite Hl.
  rewrite (handlePredict_cases reply s a b Ha Hb) in Hrun.
  exists a, b. split; [exact Hl|].
  destruct (List.length (obj_values a) <? 11) eqn:Ea.
  { inversion Hrun; subst. split; [|auto]. split; [intros H; now elim H|].
    intros H. apply Nat.ltb_lt in Ea.
    assert (11 <= List.length (obj_values a))
      by (apply roles_filled_length; intros k Hk; now apply H).
    lia. }
  destruct (List.length (obj_values b) <? 11) eqn:Eb.
  { inversion Hrun; subst. split; [|auto]. split; [intros H; now elim H|].
    intros H. apply Nat.ltb_lt in Eb.
    assert (11 <= List.length (obj_values b))
      by (apply roles_filled_length; intros k Hk; now apply H).
    lia. }
  apply Nat.ltb_ge in Ea, Eb. cbn [orb] in Hrun.
  destruct (full_side_roles a Hoka Ea) as [_ Ra].
  destruct (full_side_roles b Hokb Eb) as [_ Rb].
  split.
  - split.
    + intros _ k Hk. split; [now apply Ra | now apply Rb].
    + intros _. destruct reply as [|status [doc|]]; inversion Hrun; subst;
        discriminate.
  - intros Hnone. destruct reply as [|status [doc|]]; inversion Hrun; subst;
      discriminate Hnone.
Qed.

(** X8. Once a request was sent and answered with a JSON document, the
    result panel is driven by that document alone: for an object whose
    fields [team_a_expected_goals] and [team_b_expected_goals] are valid
    children (text, numbers, nothing, or missing) it shows the two fields;
    for [null], [false], [0] or the empty string, and for those only, no
    panel is asked for; and nothing is alerted in either case. *)
Theorem panel_after_answer (s s' : State) (status : Z) (doc : value)
  (effects : list Effect) :
  handlePredict (Response status (Some doc)) s = Ok (s', effects) ->
  requests effects <> [] ->
  alerts effects = []
  /\ (forall o, doc = VObj o ->
        valid_child (prop o "team_a_expected_goals") = true ->
        valid_child (prop o "team_b_expected_goals") = true ->
        renderPrediction s'
        = Some (prop o "team_a_expected_goals",
                prop o "team_b_expected_goals"))
  /\ (truthy doc = false -> renderPrediction s' = None)
  /\ (renderPrediction s' = None -> truthy doc = false).
Proof.
  intros Hrun Hsent.
  destruct (handlePredict_sides _ _ _ _ Hrun) as (a & b & Ha & Hb).
  rewrite (handlePredict_cases _ s a b Ha Hb) in Hrun.
  destruct (_ || _); inversion Hrun; subst; [now elim Hsent|].
  unfold renderPrediction. cbn [prediction setLoading setPrediction alerts].
  split; [reflexivity|]. split; [|split].
  - intros o -> _ _. reflexivity.
  - intros Hf. now rewrite Hf.
  - destruct (truthy doc); [|reflexivity]. destruct doc; discriminate.
Qed.

(** ** The search filter on records of any shape *)

Lemma filterM_throws {A : Type} (f : A -> result bool) (l : list A) :
  filterM f l = Throw TypeError
  <-> exists x, In x l /\ f x = Throw TypeError.
Proof.
  induction l as [|a l IH]; simpl.
  - split; [discriminate | intros (x & [] & _)].
  - destruct (f a) as [c|[]] eqn:Ea; simpl.
    + destruct (filterM f l) as [r|[]] eqn:El; simpl.
      * split; [discriminate|]. intros (x & [<-|Hin] & Hx); [congruence|].
        assert (H : Ok r = Throw TypeError) by (apply IH; eauto).
        discriminate H.
      * split; [|reflexivity]. intros _.
        destruct (proj1 IH eq_refl) as (x & Hin & Hx). eauto.
    + split; [|reflexivity]. intros _. eauto.
Qed.

Lemma filterM_returns {A : Type} (f : A -> result bool) (l r : list A) :
  filterM f l = Ok r ->
  (forall x, In x l -> exists c, f x = Ok c)
  /\ r = filter (fun x => match f x with Ok c => c | Throw _ => false end) l.
Proof.
  revert r. induction l as [|a l IH]; simpl; intros r H.
  - inversion H; subst. split; [intros x []|reflexivity].
  - destruct (f a) as [c|] eqn:Ea; simpl in H; [|discriminate].
    destruct (filterM f l) as [r'|] eqn:El; simpl in H; [|discriminate].
    destruct (IH r' eq_refl) as [Hall ->]. inversion H; subst. split.
    + intros x [<-|Hin]; eauto.
    + reflexivity.
Qed.

Lemma matches_search_verdict term p c :
  matches_search term p = Ok c -> (c = true <-> Spec.lower_matches term p).
Proof.
  unfold matches_search, Spec.lower_matches, toLowerCase_of.
  destruct (prop p "name") as [| | | |n| |] eqn:En; simpl; try discriminate.
  destruct (JsString.includes (JsString.toLowerCase n) _) eqn:In_.
  - intros H; inversion H; subst. split; [|reflexivity]. intros _. left.
    exists n. split; [reflexivity|]. now apply JsStringFacts.includes_lowered.
  - destruct (prop p "team") as [| | | |t| |] eqn:Et; simpl; try discriminate.
    intros H; inversion H; subst. split.
    + intros Hc. right. exists t. split; [reflexivity|].
      now apply JsStringFacts.includes_lowered.
    + intros [(n' & Heq & Hc)|(t' & Heq & Hc)]; inversion Heq; subst.
      * apply JsStringFacts.includes_lowered in Hc. congruence.
      * now apply JsStringFacts.includes_lowered.
Qed.

Lemma matches_search_throws term p :
  matches_search term p = Throw TypeError
  <-> (forall n, prop p "name" <> VStr n)
      \/ (exists n, prop p "name" = VStr n
                    /\ ~ Spec.found_lowered n term
                    /\ forall t, prop p "team" <> VStr t).
Proof.
  unfold matches_search, toLowerCase_of.
  destruct (prop p "name") as [| | | |n| |] eqn:En; simpl;
    try (split; [intros _; left; intros n; discriminate | reflexivity]).
  destruct (JsString.includes (JsString.toLowerCase n) _) eqn:In_.
  - split; [discriminate|]. intros [H|(n' & Heq & Hc & _)].
    + now elim (H n).
    + inversion Heq; subst. elim Hc. now apply JsStringFacts.includes_lowered.
  - assert (Hc : ~ Spec.found_lowered n term).
    { intros Hc. apply JsStringFacts.includes_lowered in Hc. congruence. }
    destruct (prop p "team") as [| | | |t| |] eqn:Et; simpl;
      try (split; [intros _; right; exists n; repeat split; auto;
                   intros t; discriminate | reflexivity]).
    split; [discriminate|]. intros [H|(n' & _ & _ & H)].
    + now elim (H n).
    + now elim (H t).
Qed.

(** X9. [filteredPlayers] throws a TypeError exactly when some loaded
    record has no string for a name, or has a name whose lowered form does
    not hold the lowered search term and no string for a team. *)
Theorem filteredPlayers_throws (s : State) :
  filteredPlayers s = Throw TypeError
  <-> exists p,
        In p (playersDb s)
        /\ ((forall n, prop p "name" <> VStr n)
            \/ (exists n, prop p "name" = VStr n
                          /\ ~ Spec.found_lowered n (searchTerm s)
                          /\ forall t, prop p "team" <> VStr t)).
Proof.
  unfold filteredPlayers. rewrite filterM_throws.
  split; intros (p & Hin & H); exists p; (split; [exact Hin|]);
    now apply matches_search_throws.
Qed.

(** X10. Whenever [filteredPlayers] returns, whatever the shape of the
    loaded records, its result holds exactly the loaded players whose
    lowered name or lowered team holds the lowered search term, in the
    order of the loaded list. *)
Theorem filteredPlayers_returns (s : State) (r : list Player) :
  filteredPlayers s = Ok r ->
  Spec.subseq r (playersDb s)
  /\ (forall p, In p r <->
                In p (playersDb s) /\ Spec.lower_matches (searchTerm s) p).
Proof.
  unfold filteredPlayers. intros H.
  destruct (filterM_returns _ _ _ H) as [Hall ->]. split.
  - apply subseq_filter.
  - intros p. rewrite filter_In. split; intros [Hin Hm]; (split; [exact Hin|]);
      destruct (Hall p Hin) as [c Hc]; rewrite Hc in *.
    + now apply (matches_search_verdict _ _ _ Hc).
    + now apply (matches_search_verdict _ _ _ Hc).
Qed.

Lemma append_assoc (a b c : string) :
  ((a ++ b) ++ c)%string = (a ++ b ++ c)%string.
Proof. induction a as [|x a IH]; simpl; [reflexivity | now rewrite IH]. Qed.

Lemma occurs_trans (hay mid needle : string) :
  Spec.occurs hay mid -> Spec.occurs mid needle -> Spec.occurs hay needle.
Proof.
  intros (b1 & a1 & ->) (b2 & a2 & ->).
  exists (b1 ++ b2)%string, (a2 ++ a1)%string.
  now rewrite !append_assoc.
Qed.

Lemma lower_matches_part (term longer : string) (p : Player) :
  Spec.occurs (JsString.toLowerCase longer) (JsString.toLowerCase term) ->
  Spec.lower_matches longer p -> Spec.lower_matches term p.
Proof.
  intros Hpart [(n & Hn & Hc)|(t & Ht & Hc)]; [left; exists n | right; exists t];
    (split; [assumption|]); unfold Spec.found_lowered in *;
    eapply occurs_trans; eauto.
Qed.

Lemma subseq_filter_filter {A : Type} (g h : A -> bool) (l : list A) :
  (forall x, In x l -> g x = true -> h x = true) ->
  Spec.subseq (filter g l) (filter h l).
Proof.
  induction l as [|a l IH]; intros H; simpl; [constructor|].
  assert (IH' : Spec.subseq (filter g l) (filter h l))
    by (apply IH; intros; apply H; [now right | assumption]).
  destruct (g a) eqn:Eg.
  - rewrite (H a (or_introl eq_refl) Eg). now constructor.
  - destruct (h a); [now constructor | exact IH'].
Qed.

(** X11. A search term whose lowered form holds the lowered form of
    another term finds no more than the other: when the filter returns for
    both, the players found for the first are among those found for the
    second, in the same order. [toLowerCase] is taken as it comes. *)
Theorem filteredPlayers_narrows (s : State) (term longer : string)
  (wide narrow : list Player) :
  Spec.occurs (JsString.toLowerCase longer) (JsString.toLowerCase term) ->
  filteredPlayers (setSearchTerm term s) = Ok wide ->
  filteredPlayers (setSearchTerm longer s) = Ok narrow ->
  Spec.subseq narrow wide.
Proof.
  unfold filteredPlayers. cbn [searchTerm playersDb setSearchTerm].
  intros Hpart Hw Hn.
  destruct (filterM_returns _ _ _ Hw) as [Hallw ->].
  destruct (filterM_returns _ _ _ Hn) as [Halln ->].
  apply subseq_filter_filter. intros p Hin Hg.
  destruct (Hallw p Hin) as [cw Hcw]. destruct (Halln p Hin) as [cn Hcn].
  rewrite Hcw. rewrite Hcn in Hg. subst cn.
  apply (matches_search_verdict _ _ _ Hcw).
  apply (lower_matches_part term longer p Hpart).
  now apply (matches_search_verdict _ _ _ Hcn).
Qed.

(** ** The logo of a team, for any value *)

Lemma some_space_app (a b : string) :
  JsWords.some_space (a ++ b)
  = JsWords.some_space a || JsWords.some_space b.
Proof.
  induction a as [|c a IH]; simpl; [reflexivity|].
  now rewrite IH, orb_assoc.
Qed.

Lemma dashed_no_space (s t : string) :
  Spec.dashed s t -> JsWords.some_space t = false.
Proof.
  induction 1 as [|c s t Hc _ IH | run s t _ _ _ _ IH]; simpl.
  - reflexivity.
  - now rewrite Hc.
  - exact IH.
Qed.

(** X12. [getLogoUrl] throws a TypeError exactly for the values that are
    truthy and no string (a number other than 0, [true], an array, an
    object); every falsy value, [false] and [0] among them, gives the
    default logo, and every string gives a URL. *)
Theorem getLogoUrl_throws (teamName : value) :
  (getLogoUrl teamName = Throw TypeError
   <-> truthy teamName = true /\ forall s, teamName <> VStr s)
  /\ (truthy teamName = false -> getLogoUrl teamName = Ok "/logos/default.png")
  /\ (forall s, teamName = VStr s -> exists u, getLogoUrl teamName = Ok u).
Proof.
  split; [|split].
  - assert (Hstr : forall s, getLogoUrl (VStr s) <> Throw TypeError).
    { intros s. unfold getLogoUrl. cbn [truthy toLowerCase_of bind].
      destruct (negb (negb (String.eqb s ""))); discriminate. }
    split.
    + intros H. split.
      * destruct (truthy teamName) eqn:E; [reflexivity|].
        unfold getLogoUrl in H. rewrite E in H. discriminate H.
      * intros s ->. now apply (Hstr s).
    + intros [Ht Hs]. unfold getLogoUrl. rewrite Ht. cbn [negb].
      destruct teamName; try reflexivity; try discriminate Ht.
      now elim (Hs s).
  - intros Hf. unfold getLogoUrl. now rewrite Hf.
  - intros s ->. unfold getLogoUrl. cbn [truthy toLowerCase_of bind].
    destruct (negb (negb (String.eqb s ""))); eauto.
Qed.

(** X13. Whatever [getLogoUrl] returns is a path under ["/logos/"] that
    holds no whitespace. *)
Theorem getLogoUrl_path (teamName : value) (u : string) :
  getLogoUrl teamName = Ok u ->
  String.prefix "/logos/" u = true /\ JsWords.some_space u = false.
Proof.
  unfold getLogoUrl. destruct (negb (truthy teamName)).
  - intros H; inversion H; subst. split; reflexivity.
  - destruct (toLowerCase_of teamName) as [lower|] eqn:El;
      cbn [bind]; [|discriminate].
    intros H. injection H as <-. split.
    { apply JsStringFacts.prefix_app. eexists. reflexivity. }
    change (JsWords.some_space
              (JsString.replace_spaces lower "-" ++ ".football-logos.cc.svg")
            = false).
    rewrite some_space_app.
    rewrite (dashed_no_space _ _ (JsStringFacts.replace_spaces_dashed lower)).
    reflexivity.
Qed.

Lemma skip_spaces_after_run (run b : string) :
  Spec.all_spaces run = true ->
  JsString.skip_spaces (run ++ b) = JsString.skip_spaces b.
Proof.
  induction run as [|c run IH]; simpl; [reflexivity|].
  intros H. apply andb_true_iff in H. destruct H as [Hc Hr].
  rewrite Hc. auto.
Qed.

Lemma replace_run (run b : string) :
  run <> "" -> Spec.all_spaces run = true ->
  JsString.replace_spaces (run ++ b) "-"
  = ("-" ++ JsString.replace_spaces (JsString.skip_spaces b) "-")%string.
Proof.
  intros Hne Hr. destruct run as [|c run]; [contradiction|].
  simpl in Hr. apply andb_true_iff in Hr. destruct Hr as [Hc Hr].
  cbn [append]. rewrite JsStringFacts.replace_spaces_run by exact Hc.
  now rewrite skip_spaces_after_run.
Qed.

(** The length of a run of whitespace does not show in the result. *)
Lemma replace_any_run (a run1 run2 b : string) :
  run1 <> "" -> run2 <> "" ->
  Spec.all_spaces run1 = true -> Spec.all_spaces run2 = true ->
  JsString.replace_spaces (a ++ run1 ++ b) "-"
  = JsString.replace_spaces (a ++ run2 ++ b) "-"
  /\ JsString.replace_spaces (JsString.skip_spaces (a ++ run1 ++ b)) "-"
     = JsString.replace_spaces (JsString.skip_spaces (a ++ run2 ++ b)) "-".
Proof.
  intros H1 H2 A1 A2. induction a as [|c a [IHr IHs]].
  - cbn [append]. rewrite !replace_run, !skip_spaces_after_run by assumption.
    split; reflexivity.
  - cbn [append]. destruct (JsString.is_space c) eqn:Ec.
    + rewrite !JsStringFacts.replace_spaces_run by exact Ec.
      cbn [JsString.skip_spaces]. rewrite Ec, IHs. split; reflexivity.
    + rewrite !JsStringFacts.replace_spaces_unit by exact Ec.
      cbn [JsString.skip_spaces]. rewrite Ec.
      rewrite !JsStringFacts.replace_spaces_unit by exact Ec.
      rewrite IHr. split; reflexivity.
Qed.

Lemma append_not_empty (a run b : string) :
  run <> "" -> (a ++ run ++ b)%string <> "".
Proof.
  intros H. destruct a; [|discriminate]. destruct run; [contradiction|discriminate].
Qed.

(** X14. Two team names whose lowered forms differ only in the length of a
    run of whitespace have the same logo; [toLowerCase] is taken as it
    comes. *)
Theorem getLogoUrl_run_length (name1 name2 a run1 run2 b : string) :
  JsString.toLowerCase name1 = (a ++ run1 ++ b)%string ->
  JsString.toLowerCase name2 = (a ++ run2 ++ b)%string ->
  run1 <> "" -> run2 <> "" ->
  Spec.all_spaces run1 = true -> Spec.all_spaces run2 = true ->
  getLogoUrl (VStr name1) = getLogoUrl (VStr name2).
Proof.
  intros L1 L2 H1 H2 A1 A2.
  assert (N1 : name1 <> "").
  { intros ->. simpl in L1. symmetry in L1.
    now apply (append_not_empty a run1 b H1). }
  assert (N2 : name2 <> "").
  { intros ->. simpl in L2. symmetry in L2.
    now apply (append_not_empty a run2 b H2). }
  unfold getLogoUrl. cbn [truthy toLowerCase_of bind].
  apply String.eqb_neq in N1, N2. rewrite N1, N2. cbn [negb].
  rewrite L1, L2.
  destruct (replace_any_run a run1 run2 b H1 H2 A1 A2) as [-> _].
  reflexivity.
Qed.

(** ** The pitch *)

(** The last piece of a split is the stretch behind the last separator,
    or the whole string when it holds none. *)
Lemma pop_split (sep : ascii) (s : string) :
  exists before word,
    JsWords.pop (JsWords.split sep s) = Some word
    /\ s = (before ++ word)%string
    /\ JsWords.has_unit sep word = false
    /\ ((before = "" /\ JsWords.split sep s = [ word ])
        \/ (exists b, before = (b ++ String sep "")%string)
           /\ exists w ws, JsWords.split sep s = w :: ws /\ ws <> []).
Proof.
  induction s as [|c s (before & word & Hpop & Hs & Hw & Hshape)].
  - exists "", "". simpl. repeat split; auto.
  - cbn [JsWords.split]. destruct (Ascii.eqb c sep) eqn:Ec.
    + apply Ascii.eqb_eq in Ec. subst c.
      exists (String sep before), word.
      assert (Hne : JsWords.split sep s <> []).
      { destruct Hshape as [[_ ->]|(_ & w & ws & -> & _)]; discriminate. }
      split.
      { destruct (JsWords.split sep s) as [|w ws]; [contradiction | exact Hpop]. }
      split; [simpl; now rewrite Hs|]. split; [exact Hw|]. right. split.
      * destruct Hshape as [[-> _]|((b & ->) & _)].
        -- now exists "".
        -- now exists (String sep b).
      * exists "", (JsWords.split sep s). auto.
    + destruct Hshape as [[-> Hsplit]|((b & ->) & w & ws & Hsplit & Hws)].
      * rewrite Hsplit. exists "", (String c word). simpl in *.
        rewrite Ec, Hw. subst s. repeat split; auto.
      * rewrite Hsplit in *. exists (String c (b ++ String sep "")), word.
        split.
        { destruct ws as [|w' ws]; [contradiction | exact Hpop]. }
        split; [simpl; now rewrite Hs|]. split; [exact Hw|]. right. split.
        -- now exists (String c b).
        -- exists (String c w), ws. auto.
Qed.

Lemma substring_start (n : nat) (w : string) :
  (exists rest, w = (String.substring 0 n w ++ rest)%string)
  /\ String.length (String.substring 0 n w) = Nat.min n (String.length w).
Proof.
  revert w. induction n as [|n IH]; intros w.
  - destruct w; simpl; split; eauto.
  - destruct w as [|c w]; simpl; [split; [now exists ""|reflexivity]|].
    destruct (IH w) as [[rest Hr] Hl]. split.
    + exists rest. now rewrite <- Hr.
    + now rewrite Hl.
Qed.

(** X15. The text in the disc of a marker is made of the first three code
    units, or fewer when there are fewer, of the last word of the name: the
    stretch behind its last space, the whole name when it holds no space,
    and nothing when the name ends with a space. It is never a TypeError on
    a string. *)
Theorem short_label_last_word (name : string) :
  exists before word label,
    short_label name = Ok label
    /\ name = (before ++ word)%string
    /\ JsWords.has_unit " "%char word = false
    /\ (before = "" \/ exists b, before = (b ++ " ")%string)
    /\ (exists rest, word = (label ++ rest)%string)
    /\ String.length label = Nat.min 3 (String.length word).
Proof.
  destruct (pop_split " "%char name)
    as (before & word & Hpop & Hs & Hw & Hshape).
  exists before, word, (JsWords.substring 0 3 word).
  unfold short_label. rewrite Hpop.
  destruct (substring_start 3 word) as [Hrest Hlen].
  repeat split; auto.
  destruct Hshape as [[-> _]|[Hb _]]; auto.
Qed.

Lemma short_label_ok (name : string) : exists label, short_label name = Ok label.
Proof.
  destruct (pop_split " "%char name) as (before & word & Hpop & _).
  unfold short_label. rewrite Hpop. eauto.
Qed.

Lemma mapM_pointwise {A B : Type} (f g : A -> result B) (Q : B -> B -> Prop)
  (l : list A) (ys : list B) :
  (forall x y, In x l -> f x = Ok y -> exists y', g x = Ok y' /\ Q y y') ->
  mapM f l = Ok ys ->
  exists ys', mapM g l = Ok ys' /\ Forall2 Q ys ys'.
Proof.
  revert ys. induction l as [|a l IH]; simpl; intros ys H Hm.
  - inversion Hm; subst. exists []. split; [reflexivity | constructor].
  - destruct (f a) as [y|] eqn:Ea; simpl in Hm; [|discriminate].
    destruct (mapM f l) as [r|] eqn:El; simpl in Hm; [|discriminate].
    inversion Hm; subst.
    destruct (H a y (or_introl eq_refl) Ea) as (y' & Hg & Hq).
    destruct (IH r) as (r' & Hr & Hf); [intros; eapply H; eauto | reflexivity|].
    exists (y' :: r'). rewrite Hg, Hr. simpl. split; [reflexivity|].
    now constructor.
Qed.

Lemma mapM_each {A B : Type} (f : A -> result B) (Q : A -> B -> Prop)
  (l : list A) :
  (forall x, In x l -> exists y, f x = Ok y /\ Q x y) ->
  exists ys, mapM f l = Ok ys /\ Forall2 Q l ys.
Proof.
  induction l as [|a l IH]; simpl; intros H.
  - exists []. split; [reflexivity | constructor].
  - destruct (H a (or_introl eq_refl)) as (y & Hy & Hq).
    destruct IH as (ys & Hys & Hf); [intros; apply H; now right|].
    exists (y :: ys). rewrite Hy, Hys. simpl. split; [reflexivity|].
    now constructor.
Qed.




(** X17. A click on a marker followed by the pick of a player whose name
    is a string shows on the pitches: the marker of that slot of that side
    is filled and carries the name of the player, and every other marker of
    the two pitches is what it was. *)
Theorem click_pick_shows (s : State) (teamId slot : string) (player : Player)
  (name : string) (t : string) (before : list Marker) :
  prop player "name" = VStr name ->
  renderPitch t s = Ok before ->
  exists after,
    renderPitch t (selectPlayer player (clickMarker teamId slot s)) = Ok after
    /\ Forall2 (fun m m' =>
                  if String.eqb t teamId && String.eqb (marker_key m) slot
                  then marker_key m' = slot
                       /\ marker_filled m' = true
                       /\ marker_caption m' = name
                       /\ short_label name = Ok (marker_label m')
                       /\ marker_top m' = marker_top m
                       /\ marker_left m' = marker_left m
                  else m' = m)
               before after.
Proof.
  intros Hname Hbefore. unfold renderPitch in *.
  unfold selectPlayer, clickMarker.
  cbn [activeSlot setActiveSlot lineups setLineups setSearchTerm team pos].
  destruct (obj_get t (lineups s)) as [side|] eqn:Eside; [|discriminate].
  destruct (String.eqb t teamId) eqn:Et.
  - apply String.eqb_eq in Et. subst t.
    destruct (mapM_pointwise (renderMarker side)
                (renderMarker (obj_set slot player side))
                (fun m m' =>
                   if String.eqb (marker_key m) slot
                   then marker_key m' = slot
                        /\ marker_filled m' = true
                        /\ marker_caption m' = name
                        /\ short_label name = Ok (marker_label m')
                        /\ marker_top m' = marker_top m
                        /\ marker_left m' = marker_left m
                   else m' = m)
                (obj_keys FORMATION_433) before) as (after & Hafter & Hrel);
      [|exact Hbefore|].
    + intros x m _ Hm. unfold renderMarker in *.
      destruct (obj_get x FORMATION_433) as [[top_ left_]|]; [|discriminate].
      assert (Hkey : marker_key m = x
                     /\ marker_top m = top_ /\ marker_left m = left_).
      { destruct (obj_get x side) as [q|].
        - destruct (prop q "name") as [| | | |n| |]; try discriminate.
          destruct (short_label n); cbn [bind] in Hm; [|discriminate].
          inversion Hm; subst; auto.
        - inversion Hm; subst; auto. }
      destruct Hkey as (Hk & Htop & Hleft). rewrite Hk.
      destruct (String.eqb x slot) eqn:Ex.
      * apply String.eqb_eq in Ex. rewrite Ex. rewrite obj_get_set_same, Hname.
        destruct (short_label_ok name) as [label Hl]. rewrite Hl. cbn [bind].
        eexists. split; [reflexivity|]. cbn. repeat split; auto.
      * apply String.eqb_neq in Ex. rewrite obj_get_set_other by exact Ex.
        eauto.
    + exists after. rewrite obj_get_set_same, Eside. cbn [spread andb].
      split; [exact Hafter | exact Hrel].
  - apply String.eqb_neq in Et. exists before.
    rewrite obj_get_set_other by exact Et. rewrite Eside. cbn [andb].
    split; [exact Hbefore|]. clear. induction before; constructor; auto.
Qed.

(** X18. In every state the application reaches, a modal that is shown
    carries one of the eleven roles in its title, the role of the marker
    that was clicked, on one of the two pitches. *)
Theorem modal_title_role (s : State) (title : string) (rows : list Row) :
  reachable s ->
  renderModal s = Ok (Some (title, rows)) ->
  In title Spec.ROLES
  /\ exists teamId,
       In teamId TEAM_IDS
       /\ activeSlot s = Some (mkActiveSlot teamId title).
Proof.
  intros Hr Hm. destruct (reachable_invariant s Hr) as [_ Hact].
  unfold renderModal in Hm.
  destruct (filteredPlayers s) as [filtered|]; cbn [bind] in Hm; [|discriminate].
  destruct (activeSlot s) as [[teamId p]|] eqn:Ea; [|discriminate].
  destruct (mapM renderRow filtered); cbn [bind] in Hm; [|discriminate].
  inversion Hm; subst. destruct (Hact _ Ea) as [Ht Hp].
  cbn [team pos] in Ht, Hp.
  split; [exact Hp|]. exists teamId. auto.
Qed.

(** ** More on filling and on the modal *)

Lemma filled_keys_order db names es :
  Spec.subseq (obj_keys (flat_map (filled_entry db names) es)) (map fst es).
Proof.
  induction es as [|e es IH]; cbn [flat_map map]; [constructor|].
  unfold filled_entry at 1. destruct (found db names e); simpl.
  - now constructor.
  - now constructor.
Qed.

(** X19. The side [fillTeamWithDefaults] writes lists its slots in the
    order of [FORMATION_ORDER], the unfilled ones left out, each slot once,
    and every player in it is a record of the catalog. *)
Theorem fillTeamWithDefaults_order (teamKey : string)
  (defaultNames : list string) (s : State) :
  exists side,
    obj_get teamKey (lineups (fillTeamWithDefaults teamKey defaultNames s))
    = Some side
    /\ Spec.subseq (obj_keys side) FORMATION_ORDER
    /\ NoDup (obj_keys side)
    /\ forall slot p, obj_get slot side = Some p -> In p (playersDb s).
Proof.
  unfold fillTeamWithDefaults. cbn [lineups setLineups].
  rewrite obj_get_set_same. eexists. split; [reflexivity|].
  pose proof (fill_slots_ok (playersDb s) defaultNames
                (entries FORMATION_ORDER) []
                formation_entries_roles lineup_ok_empty) as (_ & Hnd & _).
  split; [|split; [exact Hnd|]].
  - rewrite filledTeam_eq. apply (filled_keys_order _ _ (entries FORMATION_ORDER)).
  - rewrite filledTeam_eq. intros slot p Hget. apply obj_get_in in Hget.
    apply in_flat_map in Hget. destruct Hget as (e & _ & Hin).
    unfold filled_entry in Hin.
    destruct (found (playersDb s) defaultNames e) as [q|] eqn:E; [|destruct Hin].
    destruct Hin as [Heq|[]]. inversion Heq; subst.
    unfold found in E. apply find_some in E. tauto.
Qed.

Lemma renderRow_named (p : Player) :
  Spec.named p -> exists row, renderRow p = Ok row.
Proof.
  intros (n & t & _ & Ht). unfold renderRow, getLogoUrl. rewrite Ht.
  cbn [truthy toLowerCase_of bind].
  destruct (negb (negb (String.eqb t ""))); cbn [bind]; eauto.
Qed.

(** X20. Over records whose name and team are strings and whose [pos] and
    [age] are valid children, what [App] computes for the modal never
    throws and holds valid children only: the modal is absent while no slot
    is active, and otherwise carries the active slot in its title and one
    row for each filtered player. *)
Theorem renderModal_typed (s : State) :
  Forall Spec.named (playersDb s) ->
  Forall (fun p => valid_child (prop p "pos") = true
                   /\ valid_child (prop p "age") = true) (playersDb s) ->
  exists filtered,
    filteredPlayers s = Ok filtered
    /\ match activeSlot s with
       | None => renderModal s = Ok None
       | Some a =>
           exists rows,
             renderModal s = Ok (Some (pos a, rows))
             /\ List.length rows = List.length filtered
             /\ Forall (fun row =>
                          valid_child (row_name row) = true
                          /\ valid_child (row_team row) = true
                          /\ valid_child (row_badge row) = true
                          /\ valid_child (row_age row) = true) rows
       end.
Proof.
  intros Hall Hkids. rewrite Forall_forall in Hall, Hkids.
  assert (Hf : filteredPlayers s
               = Ok (filter (search_verdict (searchTerm s)) (playersDb s))).
  { apply filterM_total. intros p Hp. now apply matches_search_total, Hall. }
  eexists. split; [exact Hf|]. unfold renderModal. rewrite Hf. cbn [bind].
  destruct (activeSlot s) as [a|]; [|reflexivity].
  destruct (mapM_each renderRow
              (fun p row =>
                 valid_child (row_name row) = true
                 /\ valid_child (row_team row) = true
                 /\ valid_child (row_badge row) = true
                 /\ valid_child (row_age row) = true)
              (filter (search_verdict (searchTerm s)) (playersDb s)))
    as (rows & Hrows & Hrel).
  { intros p Hp. apply filter_In in Hp. destruct Hp as [Hp _].
    destruct (renderRow_named p (Hall p Hp)) as [row Hrow].
    exists row. split; [exact Hrow|].
    destruct (renderRow_fields p row Hrow) as (Hn & Ht & Hb & Hg & _).
    destruct (Hall p Hp) as (n & t & En & Et).
    destruct (Hkids p Hp) as [Kp Ka].
    rewrite Hn, Ht, Hb, Hg, En, Et. repeat split; auto. }
  exists rows. rewrite Hrows. cbn [bind]. split; [reflexivity|]. split.
  - symmetry. eapply Forall2_length; eauto.
  - clear - Hrel. induction Hrel; constructor; auto.
Qed.

(** ** The further properties at work *)

Lemma selectPlayer_slot_order_witness :
  activeSlot Scenario.striker_open = Some (mkActiveSlot "teamA" "ST")
  /\ obj_get "teamA" (lineups Scenario.striker_open) = Some Scenario.home_side
  /\ exists side',
       obj_get "teamA" (lineups Scenario.striker_picked) = Some side'
       /\ (In "ST" (obj_keys Scenario.home_side) ->
           obj_keys side' = obj_keys Scenario.home_side
           /\ List.length (obj_values side')
              = List.length (obj_values Scenario.home_side))
       /\ (~ In "ST" (obj_keys Scenario.home_side) ->
           side' = Scenario.home_side ++ [ ("ST", Scenario.alisson) ])
       /\ obj_keys (lineups Scenario.striker_picked)
          = obj_keys (lineups Scenario.striker_open).
Proof.
  split; [reflexivity|]. split; [reflexivity|].
  exact (selectPlayer_slot_order Scenario.striker_open
           (mkActiveSlot "teamA" "ST") Scenario.alisson Scenario.home_side
           eq_refl eq_refl).
Defined.

Lemma catalog_home n :
  In n (firstn 11 TEAM_A_DEFAULT) ->
  exists p, In p (playersDb Scenario.loaded) /\ prop p "name" = VStr n.
Proof.
  intros Hn. exists (Scenario.record n "Liverpool" "MF").
  split; [|reflexivity]. cbn [playersDb Scenario.loaded loadPlayers fst setPlayersDb].
  unfold Scenario.catalog. apply in_or_app. left.
  apply (in_map (fun n => Scenario.record n "Liverpool" "MF")). exact Hn.
Qed.

Lemma catalog_both n :
  In n (TEAM_A_DEFAULT ++ TEAM_B_DEFAULT) ->
  exists p, In p (playersDb Scenario.loaded) /\ prop p "name" = VStr n.
Proof.
  intros Hn. apply in_app_or in Hn.
  cbn [playersDb Scenario.loaded loadPlayers fst setPlayersDb].
  unfold Scenario.catalog. destruct Hn as [Hn|Hn].
  - exists (Scenario.record n "Liverpool" "MF"). split; [|reflexivity].
    apply in_or_app. left.
    now apply (in_map (fun n => Scenario.record n "Liverpool" "MF")).
  - exists (Scenario.record n "Manchester City" "MF"). split; [|reflexivity].
    apply in_or_app. right.
    now apply (in_map (fun n => Scenario.record n "Manchester City" "MF")).
Qed.

Lemma fillTeamWithDefaults_complete_witness :
  11 <= List.length TEAM_A_DEFAULT
  /\ exists side,
       obj_get "teamA" (lineups Scenario.home_filled) = Some side
       /\ obj_keys side = FORMATION_ORDER
       /\ Spec.selected_names side = map VStr (firstn 11 TEAM_A_DEFAULT).
Proof.
  assert (Hlen : 11 <= List.length TEAM_A_DEFAULT) by (simpl; lia).
  split; [exact Hlen|].
  exact (fillTeamWithDefaults_complete "teamA" TEAM_A_DEFAULT Scenario.loaded
           Hlen catalog_home).
Defined.

Lemma fills_then_predict_witness :
  exists s' effects,
    handlePredict Unreachable Scenario.both_filled = Ok (s', effects)
    /\ requests effects
       = [ {| url := "http://localhost:8000/predict";
              method := "POST";
              headers := [ ("Content-Type", "application/json") ];
              body := VObj [ ("team_a_players",
                              VArr (map VStr TEAM_A_DEFAULT));
                             ("team_b_players",
                              VArr (map VStr TEAM_B_DEFAULT)) ] |} ].
Proof.
  exact (fills_then_predict Scenario.loaded Unreachable catalog_both
           Scenario.both_filled (or_introl eq_refl)).
Defined.

Lemma handlePredict_returns_witness :
  reachable Scenario.both_filled
  /\ exists s' effects,
       handlePredict Unreachable Scenario.both_filled = Ok (s', effects)
       /\ playersDb s' = playersDb Scenario.both_filled
       /\ lineups s' = lineups Scenario.both_filled
       /\ activeSlot s' = activeSlot Scenario.both_filled
       /\ searchTerm s' = searchTerm Scenario.both_filled.
Proof.
  split; [exact both_filled_reachable|].
  exact (proj2 (handlePredict_returns Scenario.both_filled Unreachable)
               both_filled_reachable).
Defined.

Lemma request_iff_all_roles_witness :
  reachable Scenario.keeper_picked
  /\ handlePredict (Response 422 (Some Scenario.error_object))
                   Scenario.keeper_picked
     = Ok (Scenario.answered, [ Fetch Scenario.duplicate_request ])
  /\ exists a b,
       lineups Scenario.keeper_picked = [ ("teamA", a); ("teamB", b) ]
       /\ (requests [ Fetch Scenario.duplicate_request ] <> []
           <-> (forall k, In k Spec.ROLES ->
                          In k (obj_keys a) /\ In k (obj_keys b)))
       /\ (requests [ Fetch Scenario.duplicate_request ] = [] ->
           Scenario.answered = Scenario.keeper_picked
           /\ [ Fetch Scenario.duplicate_request ]
              = [ Alert "Both teams must have 11 players selected!" ]).
Proof.
  assert (Hrun : handlePredict (Response 422 (Some Scenario.error_object))
                               Scenario.keeper_picked
                 = Ok (Scenario.answered, [ Fetch Scenario.duplicate_request ]))
    by (vm_compute; reflexivity).
  split; [exact keeper_picked_reachable|]. split; [exact Hrun|].
  exact (request_iff_all_roles _ _ _ _ keeper_picked_reachable Hrun).
Defined.

Lemma panel_after_answer_witness :
  handlePredict (Response 200 (Some (VObj Tour.forecast))) Scenario.both_filled
  = Ok (Tour.forecast_shown,
        [ Fetch (Spec.prediction_request Scenario.home_side
                                         Scenario.away_side) ])
  /\ valid_child (prop Tour.forecast "team_a_expected_goals") = true
  /\ valid_child (prop Tour.forecast "team_b_expected_goals") = true
  /\ renderPrediction Tour.forecast_shown
     = Some (VNum 17 (-1), VNum 9 (-1)).
Proof.
  assert (Hrun : handlePredict (Response 200 (Some (VObj Tour.forecast)))
                               Scenario.both_filled
                 = Ok (Tour.forecast_shown,
                       [ Fetch (Spec.prediction_request Scenario.home_side
                                                        Scenario.away_side) ]))
    by (vm_compute; reflexivity).
  split; [exact Hrun|]. split; [reflexivity|]. split; [reflexivity|].
  destruct (panel_after_answer _ _ _ _ _ Hrun) as (_ & Hshow & _);
    [discriminate|].
  exact (Hshow Tour.forecast eq_refl eq_refl eq_refl).
Defined.

Lemma filteredPlayers_throws_witness :
  filteredPlayers (setSearchTerm "city" Tour.teamless_loaded) = Throw TypeError.
Proof.
  apply (proj2 (filteredPlayers_throws
                  (setSearchTerm "city" Tour.teamless_loaded))).
  exists Tour.teamless. split; [simpl; tauto|]. right.
  exists "Ederson". split; [reflexivity|]. split; [|discriminate].
  intros Hc. apply JsStringFacts.includes_lowered in Hc. discriminate Hc.
Defined.

Lemma filteredPlayers_returns_witness :
  filteredPlayers (setSearchTerm "eder" Tour.teamless_loaded)
  = Ok [ Tour.teamless ]
  /\ Spec.subseq [ Tour.teamless ]
                 (playersDb (setSearchTerm "eder" Tour.teamless_loaded))
  /\ (forall p, In p [ Tour.teamless ] <->
                In p (playersDb (setSearchTerm "eder" Tour.teamless_loaded))
                /\ Spec.lower_matches
                     (searchTerm (setSearchTerm "eder" Tour.teamless_loaded)) p).
Proof.
  assert (H : filteredPlayers (setSearchTerm "eder" Tour.teamless_loaded)
              = Ok [ Tour.teamless ]) by reflexivity.
  split; [exact H|].
  exact (filteredPlayers_returns _ _ H).
Defined.

Lemma filteredPlayers_narrows_witness :
  Spec.occurs (JsString.toLowerCase "SS") (JsString.toLowerCase "s")
  /\ filteredPlayers (setSearchTerm "s" Tour.pair_loaded)
     = Ok [ Scenario.alisson; Tour.ederson ]
  /\ filteredPlayers (setSearchTerm "SS" Tour.pair_loaded)
     = Ok [ Scenario.alisson ]
  /\ Spec.subseq [ Scenario.alisson ] [ Scenario.alisson; Tour.ederson ].
Proof.
  assert (Hp : Spec.occurs (JsString.toLowerCase "SS")
                           (JsString.toLowerCase "s"))
    by (exists "", "s"; reflexivity).
  assert (Hw : filteredPlayers (setSearchTerm "s" Tour.pair_loaded)
               = Ok [ Scenario.alisson; Tour.ederson ]) by reflexivity.
  assert (Hn : filteredPlayers (setSearchTerm "SS" Tour.pair_loaded)
               = Ok [ Scenario.alisson ]) by reflexivity.
  split; [exact Hp|]. split; [exact Hw|]. split; [exact Hn|].
  exact (filteredPlayers_narrows Tour.pair_loaded "s" "SS" _ _ Hp Hw Hn).
Defined.

Lemma getLogoUrl_throws_witness :
  truthy (VNum 5 0) = true
  /\ (forall s, VNum 5 0 <> VStr s)
  /\ getLogoUrl (VNum 5 0) = Throw TypeError.
Proof.
  assert (Ht : truthy (VNum 5 0) = true) by reflexivity.
  assert (Hs : forall s, VNum 5 0 <> VStr s) by discriminate.
  split; [exact Ht|]. split; [exact Hs|].
  exact (proj2 (proj1 (getLogoUrl_throws (VNum 5 0))) (conj Ht Hs)).
Defined.

Lemma getLogoUrl_path_witness :
  getLogoUrl (VStr "West  Ham United")
  = Ok "/logos/west-ham-united.football-logos.cc.svg"
  /\ String.prefix "/logos/" "/logos/west-ham-united.football-logos.cc.svg"
     = true
  /\ JsWords.some_space "/logos/west-ham-united.football-logos.cc.svg" = false.
Proof.
  assert (H : getLogoUrl (VStr "West  Ham United")
              = Ok "/logos/west-ham-united.football-logos.cc.svg")
    by reflexivity.
  split; [exact H|].
  exact (getLogoUrl_path _ _ H).
Defined.

Lemma getLogoUrl_run_length_witness :
  JsString.toLowerCase "West  Ham" = ("west" ++ "  " ++ "ham")%string
  /\ JsString.toLowerCase "West Ham" = ("west" ++ " " ++ "ham")%string
  /\ "  " <> "" /\ " " <> ""
  /\ Spec.all_spaces "  " = true /\ Spec.all_spaces " " = true
  /\ getLogoUrl (VStr "West  Ham") = getLogoUrl (VStr "West Ham").
Proof.
  assert (H1 : "  " <> "") by discriminate.
  assert (H2 : " " <> "") by discriminate.
  split; [reflexivity|]. split; [reflexivity|].
  split; [exact H1|]. split; [exact H2|].
  split; [reflexivity|]. split; [reflexivity|].
  exact (getLogoUrl_run_length "West  Ham" "West Ham" "west" "  " " " "ham"
           eq_refl eq_refl H1 H2 eq_refl eq_refl).
Defined.


Lemma click_pick_shows_witness :
  prop Scenario.alisson "name" = VStr "Alisson"
  /\ renderPitch "teamA" initial = Ok Tour.empty_markers
  /\ exists after,
       renderPitch "teamA"
                   (selectPlayer Scenario.alisson
                      (clickMarker "teamA" "GK" initial)) = Ok after
       /\ Forall2 (fun m m' =>
                     if String.eqb "teamA" "teamA"
                        && String.eqb (marker_key m) "GK"
                     then marker_key m' = "GK"
                          /\ marker_filled m' = true
                          /\ marker_caption m' = "Alisson"
                          /\ short_label "Alisson" = Ok (marker_label m')
                          /\ marker_top m' = marker_top m
                          /\ marker_left m' = marker_left m
                     else m' = m)
                  Tour.empty_markers after.
Proof.
  assert (Hn : prop Scenario.alisson "name" = VStr "Alisson") by reflexivity.
  assert (Hb : renderPitch "teamA" initial = Ok Tour.empty_markers)
    by reflexivity.
  split; [exact Hn|]. split; [exact Hb|].
  exact (click_pick_shows initial "teamA" "GK" Scenario.alisson "Alisson"
           "teamA" Tour.empty_markers Hn Hb).
Defined.

Lemma modal_open_reachable (p : Player) : reachable (Scenario.modal_open p).
Proof.
  apply (reach_step (fst (loadPlayers (PlayersData [p]) initial))).
  - apply (reach_step initial); [apply reach_initial|].
    apply (step_load initial (PlayersData [p])).
  - apply step_open; simpl; tauto.
Qed.

Lemma modal_title_role_witness :
  reachable (Scenario.modal_open Scenario.positioned)
  /\ renderModal (Scenario.modal_open Scenario.positioned)
     = Ok (Some ("GK", [ Scenario.positioned_row ]))
  /\ In "GK" Spec.ROLES
  /\ exists teamId,
       In teamId TEAM_IDS
       /\ activeSlot (Scenario.modal_open Scenario.positioned)
          = Some (mkActiveSlot teamId "GK").
Proof.
  assert (Hm : renderModal (Scenario.modal_open Scenario.positioned)
               = Ok (Some ("GK", [ Scenario.positioned_row ])))
    by (vm_compute; reflexivity).
  split; [apply modal_open_reachable|]. split; [exact Hm|].
  exact (modal_title_role _ _ _ (modal_open_reachable _) Hm).
Defined.

Lemma catalog_children :
  Forall (fun p => valid_child (prop p "pos") = true
                   /\ valid_child (prop p "age") = true) Scenario.catalog.
Proof.
  unfold Scenario.catalog. apply Forall_app. split; apply Forall_map;
    apply Forall_forall; intros n _; split; reflexivity.
Qed.

Lemma renderModal_typed_witness :
  Forall Spec.named (playersDb Scenario.searching)
  /\ Forall (fun p => valid_child (prop p "pos") = true
                      /\ valid_child (prop p "age") = true)
            (playersDb Scenario.searching)
  /\ exists filtered,
       filteredPlayers Scenario.searching = Ok filtered
       /\ exists rows,
            renderModal Scenario.searching = Ok (Some ("ST", rows))
            /\ List.length rows = List.length filtered
            /\ Forall (fun row =>
                         valid_child (row_name row) = true
                         /\ valid_child (row_team row) = true
                         /\ valid_child (row_badge row) = true
                         /\ valid_child (row_age row) = true) rows.
Proof.
  split; [exact catalog_named|]. split; [exact catalog_children|].
  exact (renderModal_typed Scenario.searching catalog_named catalog_children).
Defined.
